(** * HandSynth 2.0: gesture-to-music mapping and voice control

    A shallow embedding of the core of HandSynth (config.js, utils/math.js,
    utils/gestures.js, audio/music-theory.js, audio/synth.js,
    tracking/hand-detector.js, visual/keyboard.js and visual/blackhole.js),
    followed by the properties of the specification that were checked
    against it and by further properties of the code.

    Conventions of the embedding.
    - A finite JavaScript number is a rational [Q]; binary64 rounding is
      not modelled.  The only non-finite number the core produces is the
      [Infinity] of [calculateDistance], carried by the type [Num].
    - [Math.sqrt] has no rational counterpart: it is a parameter of the
      definitions that measure distances.
    - Module-level variables and the shared [state] object live in a
      [World]; every operation is a computation in the monad [M], which
      threads the world and may end in a thrown exception.
    - The audio engine (Tone.js) is a capability: every call to it is
      appended to the world's [calls] log, unless the world's [faulty]
      predicate makes that call throw.
    - [setTimeout] callbacks are the constructors of [Task]; they wait in
      the world's [timers] list until the scheduler fires them.
    - The DOM, the console and the canvas are outside the world. *)

From Stdlib Require Import QArith Qabs Qround Qpower ZArith List String Ascii Bool.
From Stdlib Require Import Lia Lqa DecimalString.
Import ListNotations.

Open Scope string_scope.
Open Scope list_scope.
Open Scope Q_scope.

(** ** JavaScript primitives *)

Module JS.

(** [Math.max] and [Math.min] on finite numbers. *)
Definition Math_max (a b : Q) : Q := if Qle_bool a b then b else a.
Definition Math_min (a b : Q) : Q := if Qle_bool a b then a else b.

(** [Math.floor] of a finite number. *)
Definition Math_floor (x : Q) : Z := Qfloor x.

(** [a % b] on integers: the remainder takes the sign of the dividend. *)
Definition rem (a b : Z) : Z := Z.rem a b.

(** [x % 1] on a finite number: the fractional part, with the sign of [x]. *)
Definition frac (x : Q) : Q := x - inject_Z (Z.quot (Qnum x) (Zpos (Qden x))).

(** [a !== b] and [a === b] on finite numbers. *)
Definition num_sne (a b : Q) : bool := negb (Qeq_bool a b).
Definition Qlt_bool (a b : Q) : bool := negb (Qle_bool b a).

(** A distance: a finite number or [Infinity]. *)
Inductive Num : Type :=
| Fin (q : Q)
| Infinity.

(** [x - c] and [x / c] for a finite [c]; [c] is positive where the code
    divides. *)
Definition Num_sub (x : Num) (c : Q) : Num :=
  match x with Fin q => Fin (q - c) | Infinity => Infinity end.
Definition Num_div (x : Num) (c : Q) : Num :=
  match x with Fin q => Fin (q / c) | Infinity => Infinity end.

(** [Math.min(x, b)] for a finite [b]: always finite. *)
Definition Num_min (x : Num) (b : Q) : Q :=
  match x with Fin q => Math_min q b | Infinity => b end.

(** Conversion of an integer to a string, as in [name + 4]. *)
Definition string_of_Z (z : Z) : string := NilEmpty.string_of_int (Z.to_int z).

(** [arr.indexOf(x)] on an array of strings: [-1] when absent. *)
Fixpoint indexOf_from (x : string) (arr : list string) (i : Z) : Z :=
  match arr with
  | [] => (-1)%Z
  | a :: rest => if String.eqb a x then i else indexOf_from x rest (i + 1)%Z
  end.
Definition indexOf (arr : list string) (x : string) : Z := indexOf_from x arr 0.

(** [arr[i]] for an integer [i]: [undefined] outside the array. *)
Definition index {A : Type} (arr : list A) (i : Z) : option A :=
  if (i <? 0)%Z then None else nth_error arr (Z.to_nat i).

(** [obj[key]] on an object literal with string keys (own properties). *)
Fixpoint prop {A : Type} (obj : list (string * A)) (key : string) : option A :=
  match obj with
  | [] => None
  | (k, v) :: rest => if String.eqb k key then Some v else prop rest key
  end.

(** [s.includes(sub)]. *)
Fixpoint starts_with (sub s : string) : bool :=
  match sub, s with
  | EmptyString, _ => true
  | String _ _, EmptyString => false
  | String a sub', String b s' => Ascii.eqb a b && starts_with sub' s'
  end.
Fixpoint includes (s sub : string) : bool :=
  starts_with sub s ||
  match s with
  | EmptyString => false
  | String _ s' => includes s' sub
  end.

End JS.
Export JS.

(** ** config.js *)

Module Config.

Definition MIN_PINCH_DIST : Q := 0.01.
Definition MAX_PINCH_DIST : Q := 0.1.

Definition DEFAULT_SCALE : string := "major".
Definition DEFAULT_ROOT : string := "C".
Definition DEFAULT_OCTAVE : Z := 4.
Definition DEFAULT_SOUND : string := "pad".

Definition scales : list (string * list Z) :=
  [ ("major",      [0; 2; 4; 5; 7; 9; 11; 12]);
    ("minor",      [0; 2; 3; 5; 7; 8; 10; 12]);
    ("pentatonic", [0; 2; 4; 7; 9; 12]);
    ("majorBlues", [0; 3; 5; 6; 7; 10; 12]);
    ("minorBlues", [0; 3; 5; 6; 7; 10; 12]);
    ("chromatic",  [0; 1; 2; 3; 4; 5; 6; 7; 8; 9; 10; 11; 12]) ]%Z.

Definition notes : list string :=
  ["C"; "C#"; "D"; "D#"; "E"; "F"; "F#"; "G"; "G#"; "A"; "A#"; "B"]%string.

Definition chordTypes : list (string * list Z) :=
  [ ("major",      [0; 4; 7]);
    ("minor",      [0; 3; 7]);
    ("minor7",     [0; 3; 7; 10]);
    ("diminished", [0; 3; 6]);
    ("augmented",  [0; 4; 8]);
    ("sus4",       [0; 5; 7]);
    ("dominant7",  [0; 4; 7; 10]);
    ("major7",     [0; 4; 7; 11]) ]%Z.

(** The keys of [soundPresets]; the envelopes are engine settings. *)
Definition soundPresets : list (string * unit) :=
  [ ("synth", tt); ("bell", tt); ("pad", tt); ("pluck", tt); ("piano", tt) ]%string.

(** A landmark of the hand tracker; [z] is optional. *)
Record Point : Type := mkPoint { px : Q; py : Q; pz : option Q }.

Definition Landmarks : Type := list Point.

(** The value of [notes[i] + octave]: a string when [notes[i]] is defined,
    the number [NaN] when it is [undefined]. *)
Inductive NoteVal : Type :=
| NoteStr (s : string)
| NoteNaN.

(** The chord object built by [getChordFromPosition]; [root] is
    [undefined] when the root index falls outside [notes]. *)
Record Chord : Type := mkChord {
  root : option string;
  type : string;
  chord_notes : list NoteVal;
  name : string
}.

(** The shared [state] object. *)
Record State : Type := mkState {
  handDetected : bool;
  isLeftHandPresent : bool;
  isRightHandPresent : bool;
  leftHandLandmarks : option Landmarks;
  rightHandLandmarks : option Landmarks;
  lastRightHandY : Q;
  lastLeftHandY : Q;
  lastMelodyNote : option NoteVal;
  lastChord : option Chord;
  audioStarted : bool;
  selectedScale : string;
  selectedRoot : string;
  octave : Z;
  selectedSound : string;
  leftHandIsPlaying : bool;
  rightHandIsPlaying : bool;
  currentMelodyNote : option NoteVal;
  currentChord : option Chord;
  leftHandVolume : Q;
  rightHandVolume : Q
}.

Definition state0 : State :=
  {| handDetected := false;
     isLeftHandPresent := false;
     isRightHandPresent := false;
     leftHandLandmarks := None;
     rightHandLandmarks := None;
     lastRightHandY := 0;
     lastLeftHandY := 0;
     lastMelodyNote := None;
     lastChord := None;
     audioStarted := false;
     selectedScale := DEFAULT_SCALE;
     selectedRoot := DEFAULT_ROOT;
     octave := DEFAULT_OCTAVE;
     selectedSound := DEFAULT_SOUND;
     leftHandIsPlaying := false;
     rightHandIsPlaying := false;
     currentMelodyNote := None;
     currentChord := None;
     leftHandVolume := 0.5;
     rightHandVolume := 0.5 |}.

(** Assignments to single fields of [state]. *)
Definition set_handDetected (v : bool) (s : State) : State :=
  mkState v (isLeftHandPresent s) (isRightHandPresent s) (leftHandLandmarks s)
    (rightHandLandmarks s) (lastRightHandY s) (lastLeftHandY s) (lastMelodyNote s)
    (lastChord s) (audioStarted s) (selectedScale s) (selectedRoot s) (octave s)
    (selectedSound s) (leftHandIsPlaying s) (rightHandIsPlaying s)
    (currentMelodyNote s) (currentChord s) (leftHandVolume s) (rightHandVolume s).
Definition set_isLeftHandPresent (v : bool) (s : State) : State :=
  mkState (handDetected s) v (isRightHandPresent s) (leftHandLandmarks s)
    (rightHandLandmarks s) (lastRightHandY s) (lastLeftHandY s) (lastMelodyNote s)
    (lastChord s) (audioStarted s) (selectedScale s) (selectedRoot s) (octave s)
    (selectedSound s) (leftHandIsPlaying s) (rightHandIsPlaying s)
    (currentMelodyNote s) (currentChord s) (leftHandVolume s) (rightHandVolume s).
Definition set_isRightHandPresent (v : bool) (s : State) : State :=
  mkState (handDetected s) (isLeftHandPresent s) v (leftHandLandmarks s)
    (rightHandLandmarks s) (lastRightHandY s) (lastLeftHandY s) (lastMelodyNote s)
    (lastChord s) (audioStarted s) (selectedScale s) (selectedRoot s) (octave s)
    (selectedSound s) (leftHandIsPlaying s) (rightHandIsPlaying s)
    (currentMelodyNote s) (currentChord s) (leftHandVolume s) (rightHandVolume s).
Definition set_leftHandLandmarks (v : option Landmarks) (s : State) : State :=
  mkState (handDetected s) (isLeftHandPresent s) (isRightHandPresent s) v
    (rightHandLandmarks s) (lastRightHandY s) (lastLeftHandY s) (lastMelodyNote s)
    (lastChord s) (audioStarted s) (selectedScale s) (selectedRoot s) (octave s)
    (selectedSound s) (leftHandIsPlaying s) (rightHandIsPlaying s)
    (currentMelodyNote s) (currentChord s) (leftHandVolume s) (rightHandVolume s).
Definition set_rightHandLandmarks (v : option Landmarks) (s : State) : State :=
  mkState (handDetected s) (isLeftHandPresent s) (isRightHandPresent s)
    (leftHandLandmarks s) v (lastRightHandY s) (lastLeftHandY s) (lastMelodyNote s)
    (lastChord s) (audioStarted s) (selectedScale s) (selectedRoot s) (octave s)
    (selectedSound s) (leftHandIsPlaying s) (rightHandIsPlaying s)
    (currentMelodyNote s) (currentChord s) (leftHandVolume s) (rightHandVolume s).
Definition set_lastRightHandY (v : Q) (s : State) : State :=
  mkState (handDetected s) (isLeftHandPresent s) (isRightHandPresent s)
    (leftHandLandmarks s) (rightHandLandmarks s) v (lastLeftHandY s) (lastMelodyNote s)
    (lastChord s) (audioStarted s) (selectedScale s) (selectedRoot s) (octave s)
    (selectedSound s) (leftHandIsPlaying s) (rightHandIsPlaying s)
    (currentMelodyNote s) (currentChord s) (leftHandVolume s) (rightHandVolume s).
Definition set_lastLeftHandY (v : Q) (s : State) : State :=
  mkState (handDetected s) (isLeftHandPresent s) (isRightHandPresent s)
    (leftHandLandmarks s) (rightHandLandmarks s) (lastRightHandY s) v (lastMelodyNote s)
    (lastChord s) (audioStarted s) (selectedScale s) (selectedRoot s) (octave s)
    (selectedSound s) (leftHandIsPlaying s) (rightHandIsPlaying s)
    (currentMelodyNote s) (currentChord s) (leftHandVolume s) (rightHandVolume s).
Definition set_lastMelodyNote (v : option NoteVal) (s : State) : State :=
  mkState (handDetected s) (isLeftHandPresent s) (isRightHandPresent s)
    (leftHandLandmarks s) (rightHandLandmarks s) (lastRightHandY s) (lastLeftHandY s) v
    (lastChord s) (audioStarted s) (selectedScale s) (selectedRoot s) (octave s)
    (selectedSound s) (leftHandIsPlaying s) (rightHandIsPlaying s)
    (currentMelodyNote s) (currentChord s) (leftHandVolume s) (rightHandVolume s).
Definition set_lastChord (v : option Chord) (s : State) : State :=
  mkState (handDetected s) (isLeftHandPresent s) (isRightHandPresent s)
    (leftHandLandmarks s) (rightHandLandmarks s) (lastRightHandY s) (lastLeftHandY s)
    (lastMelodyNote s) v (audioStarted s) (selectedScale s) (selectedRoot s) (octave s)
    (selectedSound s) (leftHandIsPlaying s) (rightHandIsPlaying s)
    (currentMelodyNote s) (currentChord s) (leftHandVolume s) (rightHandVolume s).
Definition set_audioStarted (v : bool) (s : State) : State :=
  mkState (handDetected s) (isLeftHandPresent s) (isRightHandPresent s)
    (leftHandLandmarks s) (rightHandLandmarks s) (lastRightHandY s) (lastLeftHandY s)
    (lastMelodyNote s) (lastChord s) v (selectedScale s) (selectedRoot s) (octave s)
    (selectedSound s) (leftHandIsPlaying s) (rightHandIsPlaying s)
    (currentMelodyNote s) (currentChord s) (leftHandVolume s) (rightHandVolume s).
Definition set_selectedScale (v : string) (s : State) : State :=
  mkState (handDetected s) (isLeftHandPresent s) (isRightHandPresent s)
    (leftHandLandmarks s) (rightHandLandmarks s) (lastRightHandY s) (lastLeftHandY s)
    (lastMelodyNote s) (lastChord s) (audioStarted s) v (selectedRoot s) (octave s)
    (selectedSound s) (leftHandIsPlaying s) (rightHandIsPlaying s)
    (currentMelodyNote s) (currentChord s) (leftHandVolume s) (rightHandVolume s).
Definition set_leftHandIsPlaying (v : bool) (s : State) : State :=
  mkState (handDetected s) (isLeftHandPresent s) (isRightHandPresent s)
    (leftHandLandmarks s) (rightHandLandmarks s) (lastRightHandY s) (lastLeftHandY s)
    (lastMelodyNote s) (lastChord s) (audioStarted s) (selectedScale s) (selectedRoot s)
    (octave s) (selectedSound s) v (rightHandIsPlaying s)
    (currentMelodyNote s) (currentChord s) (leftHandVolume s) (rightHandVolume s).
Definition set_rightHandIsPlaying (v : bool) (s : State) : State :=
  mkState (handDetected s) (isLeftHandPresent s) (isRightHandPresent s)
    (leftHandLandmarks s) (rightHandLandmarks s) (lastRightHandY s) (lastLeftHandY s)
    (lastMelodyNote s) (lastChord s) (audioStarted s) (selectedScale s) (selectedRoot s)
    (octave s) (selectedSound s) (leftHandIsPlaying s) v
    (currentMelodyNote s) (currentChord s) (leftHandVolume s) (rightHandVolume s).
Definition set_currentMelodyNote (v : option NoteVal) (s : State) : State :=
  mkState (handDetected s) (isLeftHandPresent s) (isRightHandPresent s)
    (leftHandLandmarks s) (rightHandLandmarks s) (lastRightHandY s) (lastLeftHandY s)
    (lastMelodyNote s) (lastChord s) (audioStarted s) (selectedScale s) (selectedRoot s)
    (octave s) (selectedSound s) (leftHandIsPlaying s) (rightHandIsPlaying s)
    v (currentChord s) (leftHandVolume s) (rightHandVolume s).
Definition set_currentChord (v : option Chord) (s : State) : State :=
  mkState (handDetected s) (isLeftHandPresent s) (isRightHandPresent s)
    (leftHandLandmarks s) (rightHandLandmarks s) (lastRightHandY s) (lastLeftHandY s)
    (lastMelodyNote s) (lastChord s) (audioStarted s) (selectedScale s) (selectedRoot s)
    (octave s) (selectedSound s) (leftHandIsPlaying s) (rightHandIsPlaying s)
    (currentMelodyNote s) v (leftHandVolume s) (rightHandVolume s).
Definition set_leftHandVolume (v : Q) (s : State) : State :=
  mkState (handDetected s) (isLeftHandPresent s) (isRightHandPresent s)
    (leftHandLandmarks s) (rightHandLandmarks s) (lastRightHandY s) (lastLeftHandY s)
    (lastMelodyNote s) (lastChord s) (audioStarted s) (selectedScale s) (selectedRoot s)
    (octave s) (selectedSound s) (leftHandIsPlaying s) (rightHandIsPlaying s)
    (currentMelodyNote s) (currentChord s) v (rightHandVolume s).
Definition set_rightHandVolume (v : Q) (s : State) : State :=
  mkState (handDetected s) (isLeftHandPresent s) (isRightHandPresent s)
    (leftHandLandmarks s) (rightHandLandmarks s) (lastRightHandY s) (lastLeftHandY s)
    (lastMelodyNote s) (lastChord s) (audioStarted s) (selectedScale s) (selectedRoot s)
    (octave s) (selectedSound s) (leftHandIsPlaying s) (rightHandIsPlaying s)
    (currentMelodyNote s) (currentChord s) (leftHandVolume s) v.

End Config.
Export Config.

(** ** visual/blackhole.js: the reactive state of the visualizer *)

Module BlackHole.

(** The fields of the [BlackHole] instance that react to the music, and
    the progress [p] of each ring.  Ring coordinates are functions of [p]
    and of the viewport; particles are re-seeded from [Math.random];
    neither is read back by the code below. *)
Record t : Type := mk {
  reactiveScale : Q;
  pulseIntensity : Q;
  discs : list Q
}.

(** The fields as the constructor leaves them, for a ring count [n]. *)
Fixpoint initial_discs (i n : nat) : list Q :=
  match n with
  | O => []
  | S n' => (inject_Z (Z.of_nat i) / 100) :: initial_discs (S i) n'
  end.
Definition create : t := mk 1.0 0 (initial_discs 0 100).

(** [lerp(start, end, t)] *)
Definition lerp (start end_ t : Q) : Q := start * (1 - t) + end_ * t.

(** [pulse(intensity = 1.0)] *)
Definition pulse (intensity : Q) (bh : t) : t :=
  mk (reactiveScale bh) intensity (discs bh).

(** [moveDiscs()]: every ring advances by 0.001 and wraps. *)
Definition moveDiscs (bh : t) : t :=
  mk (reactiveScale bh) (pulseIntensity bh)
     (map (fun p => frac (p + 0.001)) (discs bh)).

(** [tick(time)]: one animation frame, reading the play flags of the
    shared state. *)
Definition tick (st : State) (bh : t) : t :=
  let bh1 := mk (reactiveScale bh) (pulseIntensity bh * 0.95) (discs bh) in
  let bh2 :=
    if leftHandIsPlaying st || rightHandIsPlaying st
    then mk (lerp (reactiveScale bh1) 1.2 0.05) (pulseIntensity bh1) (discs bh1)
    else mk (lerp (reactiveScale bh1) 1.0 0.05) (pulseIntensity bh1) (discs bh1) in
  moveDiscs bh2.

(** The render loop: one [tick] per display frame; the shared state seen
    by each frame is given by the list. *)
Fixpoint ticks (frames : list State) (bh : t) : t :=
  match frames with
  | [] => bh
  | st :: rest => ticks rest (tick st bh)
  end.

End BlackHole.

(** ** The world of the running page *)

Module Runtime.

(** Calls to the audio engine.  Times are offsets from [Tone.now()];
    [None] is an omitted argument.  A volume call carries the gain [g] of
    [synth.volume.value = Tone.gainToDb(g)]. *)
Inductive Call : Type :=
| MelodyTriggerAttack (note : NoteVal) (time velocity : Q)
| MelodyTriggerRelease (time : option Q)
| MelodyDispose
| MelodyCreate (sound : string)
| MelodyVolume (gain : Q)
| HarmonyTriggerAttack (chordNotes : list NoteVal) (time velocity : Q)
| HarmonyReleaseAll (time : option Q)
| HarmonyDispose
| HarmonyCreate (sound : string)
| HarmonyVolume (gain : Q)
| ReverbWet (wet : Q).

(** The callbacks handed to [setTimeout] in synth.js. *)
Inductive Task : Type :=
| RebuildHarmony (chord : Chord)
| AttackNewChord (chord : Chord)
| EnsureChordStopped
| SwitchSynths.

Inductive Error : Type :=
| TypeError (what : string)
| EngineError (c : Call).

Record World : Type := mkWorld {
  st : State;
  melodySynth : bool;
  harmonySynth : bool;
  reverb : bool;
  canvas : bool;
  blackHole : option BlackHole.t;
  timers : list (Z * Task);
  calls : list Call;
  pulses : list Q;
  faulty : Call -> bool
}.

Inductive Outcome (A : Type) : Type :=
| Ok (a : A)
| Throw (e : Error).
Arguments Ok {A} a.
Arguments Throw {A} e.

Definition M (A : Type) : Type := World -> Outcome A * World.

Definition ret {A : Type} (a : A) : M A := fun w => (Ok a, w).

Definition bind {A B : Type} (m : M A) (k : A -> M B) : M B :=
  fun w =>
    match m w with
    | (Ok a, w') => k a w'
    | (Throw e, w') => (Throw e, w')
    end.

Definition throw {A : Type} (e : Error) : M A := fun w => (Throw e, w).

(** [try { body } catch (error) { console.error(...) }] *)
Definition try_catch (body : M unit) : M unit :=
  fun w =>
    match body w with
    | (Ok _, w') => (Ok tt, w')
    | (Throw _, w') => (Ok tt, w')
    end.

Definition getWorld : M World := fun w => (Ok w, w).
Definition getState : M State := fun w => (Ok (st w), w).

Definition modifyState (f : State -> State) : M unit :=
  fun w =>
    (Ok tt, mkWorld (f (st w)) (melodySynth w) (harmonySynth w) (reverb w) (canvas w)
              (blackHole w) (timers w) (calls w) (pulses w) (faulty w)).

Definition set_melodySynth (v : bool) : M unit :=
  fun w =>
    (Ok tt, mkWorld (st w) v (harmonySynth w) (reverb w) (canvas w)
              (blackHole w) (timers w) (calls w) (pulses w) (faulty w)).

Definition set_harmonySynth (v : bool) : M unit :=
  fun w =>
    (Ok tt, mkWorld (st w) (melodySynth w) v (reverb w) (canvas w)
              (blackHole w) (timers w) (calls w) (pulses w) (faulty w)).

(** A call to the engine: it throws when the engine rejects it, and is
    logged otherwise. *)
Definition engine (c : Call) : M unit :=
  fun w =>
    if faulty w c then (Throw (EngineError c), w)
    else (Ok tt, mkWorld (st w) (melodySynth w) (harmonySynth w) (reverb w) (canvas w)
                   (blackHole w) (timers w) (calls w ++ [c]) (pulses w) (faulty w)).

(** [setTimeout(callback, ms)] *)
Definition setTimeout (task : Task) (ms : Z) : M unit :=
  fun w =>
    (Ok tt, mkWorld (st w) (melodySynth w) (harmonySynth w) (reverb w) (canvas w)
              (blackHole w) (timers w ++ [(ms, task)]) (calls w) (pulses w) (faulty w)).

(** [pulseBlackHole(intensity)] of visual/blackhole.js: forwards to the
    instance when there is one.  The emitted intensity is logged. *)
Definition pulseBlackHole (intensity : Q) : M unit :=
  fun w =>
    (Ok tt, mkWorld (st w) (melodySynth w) (harmonySynth w) (reverb w) (canvas w)
              (match blackHole w with
               | Some bh => Some (BlackHole.pulse intensity bh)
               | None => None
               end)
              (timers w) (calls w) (pulses w ++ [intensity]) (faulty w)).

(** [updateNoteDisplay()] of ui/controls.js writes the text of a DOM
    element from the state and changes nothing else. *)
Definition updateNoteDisplay : M unit := ret tt.

Definition when (b : bool) (m : M unit) : M unit := if b then m else ret tt.

End Runtime.
Export Runtime.

Declare Scope js_scope.
Delimit Scope js_scope with js.
Notation "x <- m ;; k" := (bind m (fun x => k))
  (at level 61, m at next level, right associativity) : js_scope.
Notation "m ;; k" := (bind m (fun _ => k))
  (at level 61, right associativity) : js_scope.
Open Scope js_scope.

(** ** utils/math.js *)

Module MathUtils.

(** [mapRange(value, inMin, inMax, outMin, outMax)] *)
Definition mapRange (value inMin inMax outMin outMax : Q) : Q :=
  let value := Math_max inMin (Math_min inMax value) in
  ((value - inMin) * (outMax - outMin)) / (inMax - inMin) + outMin.

Section Distance.
Variable Math_sqrt : Q -> Q.

(** [calculateDistance(point1, point2)]; a missing point is [None]. *)
Definition calculateDistance (point1 point2 : option Point) : Num :=
  match point1, point2 with
  | Some p1, Some p2 =>
      let dx := px p1 - px p2 in
      let dy := py p1 - py p2 in
      let dz := match pz p1 with Some z => z | None => 0 end
                - match pz p2 with Some z => z | None => 0 end in
      Fin (Math_sqrt (dx * dx + dy * dy + dz * dz))
  | _, _ => Infinity
  end.
End Distance.

(** [lerp(start, end, t)] *)
Definition lerp (start end_ t : Q) : Q := start * (1 - t) + end_ * t.

(** [clamp(value, min, max)] *)
Definition clamp (value min max : Q) : Q := Math_max min (Math_min max value).

End MathUtils.
Export MathUtils.

(** ** audio/music-theory.js *)

Module MusicTheory.

(** [notes[noteIndex] + noteOctave] *)
Definition noteName (noteIndex noteOctave : Z) : NoteVal :=
  match index notes noteIndex with
  | Some n => NoteStr (String.append n (string_of_Z noteOctave))
  | None => NoteNaN
  end.

(** The name and octave of a MIDI pitch, as both functions compute it. *)
Definition noteOfMidi (midiNote : Z) : NoteVal :=
  let noteIndex := rem midiNote 12 in
  let noteOctave := (Math_floor (inject_Z midiNote / 12) - 1)%Z in
  noteName noteIndex noteOctave.

(** [getNoteFromPosition(y, scale)].  Reading [.length] of a scale that
    is not a key of [scales] throws.  Every array of [scales] is
    non-empty, so the quotient by its length is finite. *)
Definition getNoteFromPosition (y : Q) (scale : string) : M NoteVal :=
  s <- getState ;;
  let positionChanged := Qlt_bool 0.03 (Qabs (y - lastRightHandY s)) in
  modifyState (set_lastRightHandY y) ;;
  let position := Math_floor (mapRange y 0.0 1.0 14 0) in
  match prop scales scale with
  | None => throw (TypeError "scaleArray is undefined")
  | Some scaleArray =>
      let len := Z.of_nat (List.length scaleArray) in
      let octaveOffset := Math_floor (inject_Z position / inject_Z len) in
      let indexInScale := rem position len in
      match index scaleArray indexInScale with
      | None => ret NoteNaN
      | Some semitones =>
          let rootIndex := indexOf notes (selectedRoot s) in
          let midiBase := (60 + rootIndex)%Z in
          let midiNote :=
            (midiBase + semitones + (octave s - 4 + octaveOffset) * 12)%Z in
          ret (noteOfMidi midiNote)
      end
  end.

(** The chord-type tables local to [getChordFromPosition]. *)
Definition chordTypeOf (scale : string) (scaleDegree : Z) : option string :=
  if String.eqb scale "major" then
    index ["major"; "minor"; "minor"; "major"; "dominant7"; "minor"; "diminished"]
          (rem scaleDegree 7)
  else if String.eqb scale "minor" then
    index ["minor"; "diminished"; "major"; "minor"; "minor"; "major"; "major"]
          (rem scaleDegree 7)
  else if String.eqb scale "majorBlues" then
    index ["dominant7"; "diminished"; "dominant7"; "diminished"; "dominant7";
           "minor"; "diminished"]
          (rem scaleDegree 7)
  else if String.eqb scale "minorBlues" then
    index ["minor7"; "dominant7"; "minor7"; "diminished"; "minor7"; "diminished";
           "dominant7"]
          (rem scaleDegree 7)
  else
    Some (if (rem scaleDegree 2 =? 0)%Z then "major" else "minor").

Definition chordNameMap : list (string * string) :=
  [ ("major", ""); ("minor", "m"); ("minor7", "m7"); ("diminished", "dim");
    ("augmented", "aug"); ("sus4", "sus4"); ("dominant7", "7"); ("major7", "maj7") ].

(** [chordNameMap[chordType] || chordType]: the empty string is falsy. *)
Definition chordSuffix (chordType : string) : string :=
  match prop chordNameMap chordType with
  | Some EmptyString => chordType
  | Some suffix => suffix
  | None => chordType
  end.

(** [getChordFromPosition(y)] *)
Definition getChordFromPosition (y : Q) : M Chord :=
  s <- getState ;;
  let positionChanged := Qlt_bool 0.03 (Qabs (y - lastLeftHandY s)) in
  modifyState (set_lastLeftHandY y) ;;
  let position := Math_floor (mapRange y 0.0 1.0 7 0) in
  match prop scales (selectedScale s) with
  | None => throw (TypeError "scaleArray is undefined")
  | Some scaleArray =>
      let len := Z.of_nat (List.length scaleArray) in
      let scaleDegree := rem position len in
      let rootIndex := indexOf notes (selectedRoot s) in
      (* [undefined] propagates as [NaN] through the arithmetic *)
      let chordRootIndex :=
        match index scaleArray scaleDegree with
        | Some degreeOffset => Some (rem (rootIndex + degreeOffset) 12)
        | None => None
        end in
      let chordRoot :=
        match chordRootIndex with
        | Some i => index notes i
        | None => None
        end in
      match chordTypeOf (selectedScale s) scaleDegree with
      | None => throw (TypeError "intervals is undefined")
      | Some chordType =>
          match prop chordTypes chordType with
          | None => throw (TypeError "intervals is undefined")
          | Some intervals =>
              let octaveOffset := Math_floor (inject_Z position / 7) in
              let chordNotes :=
                match chordRootIndex with
                | Some i =>
                    let midiBase := (48 + i + (octave s - 4 + octaveOffset) * 12)%Z in
                    map (fun interval => noteOfMidi (midiBase + interval)%Z) intervals
                | None => map (fun _ => NoteNaN) intervals
                end in
              ret {| root := chordRoot;
                     type := chordType;
                     chord_notes := chordNotes;
                     name := String.append
                               match chordRoot with
                               | Some r => r
                               | None => "undefined"
                               end
                               (chordSuffix chordType) |}
          end
      end
  end.

End MusicTheory.
Export MusicTheory.


(** ** audio/synth.js *)

Module Synth.

(** *** [JSON.stringify] of an array of note values *)

Definition hex_digit (n : nat) : ascii :=
  nth n ["0"; "1"; "2"; "3"; "4"; "5"; "6"; "7"; "8"; "9";
         "a"; "b"; "c"; "d"; "e"; "f"]%char "0"%char.

Definition quote_char : ascii := ascii_of_nat 34.
Definition backslash : ascii := ascii_of_nat 92.

Definition json_escape (c : ascii) : string :=
  let n := nat_of_ascii c in
  if Nat.eqb n 34 then String backslash (String quote_char EmptyString)
  else if Nat.eqb n 92 then String backslash (String backslash EmptyString)
  else if Nat.eqb n 8 then String backslash "b"
  else if Nat.eqb n 9 then String backslash "t"
  else if Nat.eqb n 10 then String backslash "n"
  else if Nat.eqb n 12 then String backslash "f"
  else if Nat.eqb n 13 then String backslash "r"
  else if Nat.ltb n 32 then
    String backslash
      (String "u" (String "0" (String "0"
         (String (hex_digit (Nat.div n 16)) (String (hex_digit (Nat.modulo n 16)) EmptyString)))))
  else String c EmptyString.

Fixpoint json_escape_string (s : string) : string :=
  match s with
  | EmptyString => EmptyString
  | String c s' => String.append (json_escape c) (json_escape_string s')
  end.

(** A string is quoted; [NaN] is serialized as [null]. *)
Definition json_of_note (n : NoteVal) : string :=
  match n with
  | NoteStr s =>
      String quote_char
        (String.append (json_escape_string s) (String quote_char EmptyString))
  | NoteNaN => "null"
  end.

Definition JSON_stringify (arr : list NoteVal) : string :=
  String.append "[" (String.append (String.concat "," (map json_of_note arr)) "]").

(** [note !== state.lastMelodyNote]: [NaN] differs from everything, and a
    note differs from [null]. *)
Definition note_sne (note : NoteVal) (last : option NoteVal) : bool :=
  match note, last with
  | NoteStr a, Some (NoteStr b) => negb (String.eqb a b)
  | _, _ => true
  end.

(** *** Synth construction *)

(** [createMelodySynth()]: reads the preset of the selected sound, then
    builds and connects a [Tone.Synth] at -10 dB. *)
Definition createMelodySynth : M unit :=
  s <- getState ;;
  match prop soundPresets (selectedSound s) with
  | None => throw (TypeError "preset is undefined")
  | Some _ => engine (MelodyCreate (selectedSound s))
  end.

(** [createHarmonySynth()]: a [Tone.PolySynth] of six voices at -14 dB. *)
Definition createHarmonySynth : M unit :=
  s <- getState ;;
  match prop soundPresets (selectedSound s) with
  | None => throw (TypeError "preset is undefined")
  | Some _ => engine (HarmonyCreate (selectedSound s))
  end.

(** *** The timer callbacks *)

(** The pulse of a chord change, from the type of the new chord. *)
Definition chordChangePulse (chord : Chord) : Q :=
  if includes (type chord) "7" then 1.0
  else if String.eqb (type chord) "diminished" then 1.2
  else 0.8.

Definition runTask (task : Task) : M unit :=
  match task with
  | RebuildHarmony chord =>
      (* playChord, after 150 ms *)
      engine HarmonyDispose ;;
      createHarmonySynth ;;
      set_harmonySynth true ;;
      s <- getState ;;
      engine (HarmonyVolume (leftHandVolume s * 0.6)) ;;
      setTimeout (AttackNewChord chord) 50
  | AttackNewChord chord =>
      (* playChord, 50 ms after the rebuild *)
      engine (HarmonyTriggerAttack (chord_notes chord) 0.05 0.6) ;;
      modifyState (set_currentChord (Some chord)) ;;
      modifyState (set_lastChord (Some chord)) ;;
      modifyState (set_leftHandIsPlaying true) ;;
      pulseBlackHole (chordChangePulse chord)
  | EnsureChordStopped =>
      (* stopChord, after 100 ms *)
      w <- getWorld ;;
      if leftHandIsPlaying (st w) && harmonySynth w then
        engine HarmonyDispose ;;
        createHarmonySynth ;;
        set_harmonySynth true
      else ret tt
  | SwitchSynths =>
      (* updateSynths, after 100 ms *)
      w <- getWorld ;;
      when (melodySynth w) (engine MelodyDispose) ;;
      when (harmonySynth w) (engine HarmonyDispose) ;;
      createMelodySynth ;;
      set_melodySynth true ;;
      createHarmonySynth ;;
      set_harmonySynth true ;;
      w' <- getWorld ;;
      when (melodySynth w') (engine (MelodyVolume (rightHandVolume (st w')))) ;;
      when (harmonySynth w') (engine (HarmonyVolume (leftHandVolume (st w') * 0.6))) ;;
      modifyState (set_rightHandIsPlaying false) ;;
      modifyState (set_leftHandIsPlaying false) ;;
      modifyState (set_currentMelodyNote None) ;;
      modifyState (set_currentChord None) ;;
      updateNoteDisplay
  end.

(** The scheduler runs the [n]-th pending callback, at top level: an
    exception it throws is caught by nobody. *)
Definition fire (n : nat) : M unit :=
  fun w =>
    match nth_error (timers w) n with
    | None => (Ok tt, w)
    | Some (_, task) =>
        runTask task
          (mkWorld (st w) (melodySynth w) (harmonySynth w) (reverb w) (canvas w)
             (blackHole w) (firstn n (timers w) ++ skipn (S n) (timers w))
             (calls w) (pulses w) (faulty w))
    end.

(** *** The exported operations *)

(** [updateSynths()] *)
Definition updateSynths : M unit :=
  try_catch (
    w <- getWorld ;;
    when (melodySynth w) (engine (MelodyTriggerRelease None)) ;;
    when (harmonySynth w) (engine (HarmonyReleaseAll None)) ;;
    setTimeout SwitchSynths 100).

(** [playMelodyNote(note)] *)
Definition playMelodyNote (note : NoteVal) : M unit :=
  w <- getWorld ;;
  if negb (audioStarted (st w)) || negb (melodySynth w) then ret tt
  else
    let noteChanged := note_sne note (lastMelodyNote (st w)) in
    modifyState (set_lastMelodyNote (Some note)) ;;
    try_catch (
      s <- getState ;;
      (if negb (rightHandIsPlaying s) then
         engine (MelodyTriggerAttack note 0 0.8) ;;
         modifyState (set_rightHandIsPlaying true) ;;
         modifyState (set_currentMelodyNote (Some note)) ;;
         pulseBlackHole 1.0
       else if noteChanged then
         engine (MelodyTriggerRelease (Some 0.02)) ;;
         engine (MelodyTriggerAttack note 0.07 0.7) ;;
         modifyState (set_currentMelodyNote (Some note)) ;;
         pulseBlackHole 0.8
       else ret tt) ;;
      updateNoteDisplay).

(** [!state.lastChord || JSON.stringify(chord.notes) !==
    JSON.stringify(state.lastChord.notes)] *)
Definition chordChanged (chord : Chord) (last : option Chord) : bool :=
  match last with
  | None => true
  | Some lastChord =>
      negb (String.eqb (JSON_stringify (chord_notes chord))
                       (JSON_stringify (chord_notes lastChord)))
  end.

(** [playChord(chord)] *)
Definition playChord (chord : Chord) : M unit :=
  w <- getWorld ;;
  if negb (audioStarted (st w)) || negb (harmonySynth w) then ret tt
  else
    let chordChanged := chordChanged chord (lastChord (st w)) in
    try_catch (
      s <- getState ;;
      (if negb (leftHandIsPlaying s) then
         engine (HarmonyTriggerAttack (chord_notes chord) 0 0.6) ;;
         modifyState (set_leftHandIsPlaying true) ;;
         modifyState (set_currentChord (Some chord)) ;;
         modifyState (set_lastChord (Some chord)) ;;
         pulseBlackHole 1.0
       else if chordChanged then
         engine (HarmonyReleaseAll (Some (- 0.005))) ;;
         setTimeout (RebuildHarmony chord) 150
       else ret tt) ;;
      updateNoteDisplay).

(** [stopMelody()] *)
Definition stopMelody : M unit :=
  w <- getWorld ;;
  if rightHandIsPlaying (st w) && melodySynth w then
    engine (MelodyTriggerRelease None) ;;
    modifyState (set_rightHandIsPlaying false) ;;
    modifyState (set_currentMelodyNote None) ;;
    updateNoteDisplay
  else ret tt.

(** [stopChord()] *)
Definition stopChord : M unit :=
  w <- getWorld ;;
  if leftHandIsPlaying (st w) && harmonySynth w then
    engine (HarmonyReleaseAll None) ;;
    setTimeout EnsureChordStopped 100 ;;
    modifyState (set_leftHandIsPlaying false) ;;
    modifyState (set_currentChord None) ;;
    updateNoteDisplay
  else ret tt.

(** [setVolume(hand, volume)] *)
Definition setVolume (hand : string) (volume : Q) : M unit :=
  w <- getWorld ;;
  if negb (audioStarted (st w)) then ret tt
  else
    let volume := Math_max 0 (Math_min volume 1) in
    try_catch (
      w <- getWorld ;;
      if String.eqb hand "left" then
        if num_sne (rightHandVolume (st w)) volume then
          modifyState (set_rightHandVolume volume) ;;
          when (harmonySynth w) (engine (HarmonyVolume (volume * 0.6)))
        else ret tt
      else if String.eqb hand "right" then
        if num_sne (leftHandVolume (st w)) volume then
          modifyState (set_leftHandVolume volume) ;;
          when (melodySynth w) (engine (MelodyVolume volume))
        else ret tt
      else ret tt).

(** [setReverb(hand, wetLevel)] *)
Definition setReverb (hand : string) (wetLevel : Q) : M unit :=
  w <- getWorld ;;
  if negb (audioStarted (st w)) || negb (reverb w) then ret tt
  else
    let wetLevel := Math_max 0 (Math_min wetLevel 1) in
    try_catch (engine (ReverbWet wetLevel)).

End Synth.
Export Synth.

(** ** tracking/hand-detector.js *)

Module HandDetector.

(** The results object of the hand tracker: the landmark arrays and the
    handedness labels, index by index.  Either array may be missing. *)
Record Results : Type := mkResults {
  multiHandLandmarks : option (list Landmarks);
  multiHandedness : option (list string)
}.

(** [mapPinchToReverb(pinchDist)] *)
Definition mapPinchToReverb (pinchDist : Num) : Q :=
  let wetLevel :=
    Num_div (Num_sub pinchDist MIN_PINCH_DIST) (MAX_PINCH_DIST - MIN_PINCH_DIST) in
  Math_max 0 (Num_min wetLevel 1).

(** [mapFingerToVolume(fingerDist)] *)
Definition mapFingerToVolume (fingerDist : Num) : Q :=
  let volume :=
    Num_div (Num_sub fingerDist MIN_PINCH_DIST) (MAX_PINCH_DIST - MIN_PINCH_DIST) in
  Math_max 0 (Num_min volume 1).

(** Reading [.x] of a point on the way to a canvas call: a missing point
    throws.  The canvas itself is not modelled. *)
Definition usePoint (p : option Point) : M unit :=
  match p with
  | Some _ => ret tt
  | None => throw (TypeError "cannot read properties of undefined")
  end.

Definition drawChordName (chord : Chord) (wrist : option Point) : M unit :=
  usePoint wrist.

Definition drawNoteName (note : NoteVal) (thumbTip : option Point) : M unit :=
  usePoint thumbTip.

Definition drawReverbVisualization (thumbTip indexTip : option Point)
    (pinchDist : Num) : M unit :=
  let reverbLevel := mapPinchToReverb pinchDist in
  usePoint thumbTip ;; usePoint indexTip.

Definition drawVolumeVisualization (thumbTip middleFinger : option Point)
    (fingerDist : Num) : M unit :=
  let volumeLevel := mapFingerToVolume fingerDist in
  usePoint middleFinger ;; usePoint thumbTip.

Section Tracking.
Variable Math_sqrt : Q -> Q.

(** [processLeftHand(landmarks)]; a landmark is a [Point], so that
    [typeof wrist.y === 'number'] holds of every wrist. *)
Definition processLeftHand (landmarks : Landmarks) : M unit :=
  modifyState (set_isLeftHandPresent true) ;;
  modifyState (set_leftHandLandmarks (Some landmarks)) ;;
  if (8 <? Z.of_nat (List.length landmarks))%Z then
    match index landmarks 0 with
    | Some wrist =>
        let thumbTip := index landmarks 4 in
        let indexTip := index landmarks 8 in
        let pinchDist := calculateDistance Math_sqrt thumbTip indexTip in
        setReverb "left" (mapPinchToReverb pinchDist) ;;
        let middleFinger := index landmarks 12 in
        let fingerDist := calculateDistance Math_sqrt middleFinger thumbTip in
        setVolume "left" (mapFingerToVolume fingerDist) ;;
        chord <- getChordFromPosition (py wrist) ;;
        playChord chord ;;
        drawChordName chord (Some wrist) ;;
        drawReverbVisualization thumbTip indexTip pinchDist ;;
        drawVolumeVisualization thumbTip middleFinger fingerDist
    | None => ret tt
    end
  else ret tt.

(** [processRightHand(landmarks)] *)
Definition processRightHand (landmarks : Landmarks) : M unit :=
  modifyState (set_isRightHandPresent true) ;;
  modifyState (set_rightHandLandmarks (Some landmarks)) ;;
  if (8 <? Z.of_nat (List.length landmarks))%Z then
    match index landmarks 0 with
    | Some wrist =>
        let thumbTip := index landmarks 4 in
        let indexTip := index landmarks 8 in
        let pinchDist := calculateDistance Math_sqrt thumbTip indexTip in
        setReverb "right" (mapPinchToReverb pinchDist) ;;
        let middleFinger := index landmarks 12 in
        let fingerDist := calculateDistance Math_sqrt middleFinger thumbTip in
        setVolume "right" (mapFingerToVolume fingerDist) ;;
        s <- getState ;;
        note <- getNoteFromPosition (py wrist) (selectedScale s) ;;
        playMelodyNote note ;;
        drawNoteName note thumbTip ;;
        drawReverbVisualization thumbTip indexTip pinchDist ;;
        drawVolumeVisualization thumbTip middleFinger fingerDist
    | None => ret tt
    end
  else ret tt.

(** The body of the loop over the detected hands, for the record at
    index [i]:
    [[
    const isLeft = classification.label === 'Left';
    if (!isLeft) { processLeftHand(landmarks); }
    else { processRightHand(landmarks); }
    ]]
    The record is skipped when it has no handedness entry. *)
Definition processHand (handedness : option (list string)) (i : nat)
    (landmarks : Landmarks) : M unit :=
  match handedness with
  | None => ret tt
  | Some labels =>
      match nth_error labels i with
      | None => ret tt
      | Some label =>
          let isLeft := String.eqb label "Left" in
          if negb isLeft then processLeftHand landmarks
          else processRightHand landmarks
      end
  end.

Fixpoint processHands (handedness : option (list string)) (i : nat)
    (hands : list Landmarks) : M unit :=
  match hands with
  | [] => ret tt
  | landmarks :: rest =>
      processHand handedness i landmarks ;;
      processHands handedness (S i) rest
  end.

(** [results.multiHandLandmarks && results.multiHandLandmarks.length > 0] *)
Definition handsOf (results : Results) : list Landmarks :=
  match multiHandLandmarks results with
  | Some hands => hands
  | None => []
  end.

(** [onHandResults(results)]: the callback of one tracking frame. *)
Definition onHandResults (results : Results) : M unit :=
  try_catch (
    w <- getWorld ;;
    if negb (canvas w) then ret tt
    else
      let hands := handsOf results in
      let detected := negb (Nat.eqb (List.length hands) 0) in
      (if detected then
         when (negb (handDetected (st w))) (modifyState (set_handDetected true))
       else modifyState (set_handDetected false)) ;;
      s <- getState ;;
      let wasLeftHandPresent := isLeftHandPresent s in
      let wasRightHandPresent := isRightHandPresent s in
      modifyState (set_isLeftHandPresent false) ;;
      modifyState (set_isRightHandPresent false) ;;
      modifyState (set_leftHandLandmarks None) ;;
      modifyState (set_rightHandLandmarks None) ;;
      (if detected then processHands (multiHandedness results) 0 hands
       else stopMelody ;; stopChord) ;;
      s' <- getState ;;
      when (negb (isLeftHandPresent s') && wasLeftHandPresent) stopChord ;;
      when (negb (isRightHandPresent s') && wasRightHandPresent) stopMelody).

End Tracking.

End HandDetector.
Export HandDetector.

(** ** utils/gestures.js *)

Module Gestures.

(** The object returned by [detectPinch]. *)
Record PinchInfo : Type := mkPinchInfo {
  isPinching : bool;
  distance : Num;
  strength : Q
}.

(** The object returned by [getFingerStates]: [true] is extended. *)
Record FingerStates : Type := mkFingerStates {
  thumb : bool;
  index_finger : bool;
  middle : bool;
  ring : bool;
  pinky : bool
}.

(** The object returned by [recognizeGesture]. *)
Record Gesture : Type := mkGesture {
  gesture_name : string;
  confidence : Q
}.

(** [x < c] and [x > y] on distances. *)
Definition Num_lt (x : Num) (c : Q) : bool :=
  match x with Fin q => Qlt_bool q c | Infinity => false end.
Definition Num_gt (x y : Num) : bool :=
  match x, y with
  | Fin a, Fin b => Qlt_bool b a
  | Infinity, Fin _ => true
  | _, Infinity => false
  end.
Definition Num_mul (x : Num) (c : Q) : Num :=
  match x with Fin q => Fin (q * c) | Infinity => Infinity end.

(** [a.y < b.y] for two landmarks that the length guard makes defined. *)
Definition above (a b : option Point) : bool :=
  match a, b with
  | Some p, Some q => Qlt_bool (py p) (py q)
  | _, _ => false
  end.

Section Recognition.
Variable Math_sqrt : Q -> Q.

(** [detectPinch(landmarks)]; [None] is a missing array.  The strength of
    an infinite distance would be [-Infinity], clamped to 0. *)
Definition detectPinch (landmarks : option Landmarks) : PinchInfo :=
  match landmarks with
  | None => mkPinchInfo false Infinity 0
  | Some lm =>
      if (Z.of_nat (List.length lm) <? 21)%Z then mkPinchInfo false Infinity 0
      else
        let thumbTip := index lm 4 in
        let indexTip := index lm 8 in
        let distance := calculateDistance Math_sqrt thumbTip indexTip in
        let isPinching := Num_lt distance (MAX_PINCH_DIST * 0.5) in
        let strength :=
          match distance with
          | Fin d =>
              Math_max 0
                (Math_min 1
                   (1 - (d - MIN_PINCH_DIST) / (MAX_PINCH_DIST - MIN_PINCH_DIST)))
          | Infinity => 0
          end in
        mkPinchInfo isPinching distance strength
  end.

(** [getFingerStates(landmarks)] *)
Definition getFingerStates (landmarks : option Landmarks) : FingerStates :=
  match landmarks with
  | None => mkFingerStates false false false false false
  | Some lm =>
      if (Z.of_nat (List.length lm) <? 21)%Z
      then mkFingerStates false false false false false
      else
        let wrist := index lm 0 in
        let indexExtended := above (index lm 8) (index lm 6) in
        let middleExtended := above (index lm 12) (index lm 10) in
        let ringExtended := above (index lm 16) (index lm 14) in
        let pinkyExtended := above (index lm 20) (index lm 18) in
        let thumbMCP := index lm 2 in
        let thumbTip := index lm 4 in
        let thumbExtended :=
          Num_gt (calculateDistance Math_sqrt thumbTip wrist)
                 (Num_mul (calculateDistance Math_sqrt thumbMCP wrist) 1.2) in
        mkFingerStates thumbExtended indexExtended middleExtended ringExtended
          pinkyExtended
  end.

(** [recognizeGesture(landmarks)] *)
Definition recognizeGesture (landmarks : option Landmarks) : Gesture :=
  let tooShort :=
    match landmarks with
    | None => true
    | Some lm => (Z.of_nat (List.length lm) <? 21)%Z
    end in
  if tooShort then mkGesture "unknown" 0
  else
    let fingers := getFingerStates landmarks in
    let pinch := detectPinch landmarks in
    if isPinching pinch then mkGesture "pinch" (strength pinch)
    else if index_finger fingers && negb (middle fingers) && negb (ring fingers)
            && negb (pinky fingers)
    then mkGesture "point" 0.9
    else if index_finger fingers && middle fingers && negb (ring fingers)
            && negb (pinky fingers)
    then mkGesture "peace" 0.9
    else if thumb fingers && pinky fingers && negb (index_finger fingers)
            && negb (middle fingers) && negb (ring fingers)
    then mkGesture "call" 0.9
    else if index_finger fingers && middle fingers && ring fingers
            && pinky fingers && negb (thumb fingers)
    then mkGesture "four" 0.9
    else if index_finger fingers && middle fingers && ring fingers
            && pinky fingers && thumb fingers
    then mkGesture "open" 0.9
    else if negb (index_finger fingers) && negb (middle fingers)
            && negb (ring fingers) && negb (pinky fingers) && negb (thumb fingers)
    then mkGesture "fist" 0.9
    else mkGesture "unknown" 0.5.

End Recognition.

End Gestures.

(** ** visual/keyboard.js *)

Module Keyboard.

(** What [createNoteMarkers] puts on the page for one grid line: the top
    of the marker in percent of the height, whether it is the octave
    divider, and the text of its label when it has one. *)
Record Marker : Type := mkMarker {
  marker_top : Q;
  octave_divider : bool;
  marker_label : option NoteVal
}.

Definition gridLines : Z := 14.

(** The body of the loop of [createNoteMarkers] for the grid line [i]. *)
Definition noteMarker (i : Z) : M Marker :=
  let y := mapRange (inject_Z i) 0 (inject_Z gridLines) 5 95 in
  if (rem i 2 =? 0)%Z && (i <? gridLines)%Z then
    s <- getState ;;
    note <- getNoteFromPosition (mapRange (inject_Z i) 0 (inject_Z gridLines) 1.0 0.0)
              (selectedScale s) ;;
    ret (mkMarker y (i =? 7)%Z (Some note))
  else ret (mkMarker y (i =? 7)%Z None).

(** [for (let i = start; ...; i++)] over the given number of iterations. *)
Fixpoint forEachIndex {A : Type} (body : Z -> M A) (start : Z) (count : nat)
    : M (list A) :=
  match count with
  | O => ret []
  | S count' =>
      a <- body start ;;
      rest <- forEachIndex body (start + 1)%Z count' ;;
      ret (a :: rest)
  end.

(** [createNoteMarkers()]: the markers of the grid lines 0 to 14. *)
Definition createNoteMarkers : M (list Marker) :=
  forEachIndex noteMarker 0 15.

(** The labels that [createNoteMarkers] appends to the container: the
    top and the text of each. *)
Definition labelsOf (markers : list Marker) : list (Q * NoteVal) :=
  flat_map (fun m =>
              match marker_label m with
              | Some note => [(marker_top m, note)]
              | None => []
              end) markers.

(** The body of the loop of [updateNoteMarkers] for the grid line [i]:
    the label it appends, if any. *)
Definition noteLabel (i : Z) : M (list (Q * NoteVal)) :=
  if (i <? gridLines)%Z then
    let y := mapRange (inject_Z i) 0 (inject_Z gridLines) 5 95 in
    s <- getState ;;
    note <- getNoteFromPosition (mapRange (inject_Z i) 0 (inject_Z gridLines) 1.0 0.0)
              (selectedScale s) ;;
    ret [(y, note)]
  else ret [].

(** [for (let i = start; ...; i += 2)] over the given number of
    iterations. *)
Fixpoint forEachSecondIndex {A : Type} (body : Z -> M A) (start : Z) (count : nat)
    : M (list A) :=
  match count with
  | O => ret []
  | S count' =>
      a <- body start ;;
      rest <- forEachSecondIndex body (start + 2)%Z count' ;;
      ret (a :: rest)
  end.

(** [updateNoteMarkers()]: the labels of the container after the old ones
    are removed; the flag tells whether the page has the container. *)
Definition updateNoteMarkers (markerContainer : bool) : M (list (Q * NoteVal)) :=
  if negb markerContainer then ret []
  else
    labels <- forEachSecondIndex noteLabel 0 8 ;;
    ret (List.concat labels).

(** The note of the key [i] in [createVisualKeyboard]. *)
Definition keyNote (s : State) (scaleArray : list Z) (i : Z) : NoteVal :=
  let len := Z.of_nat (List.length scaleArray) in
  let octaveOffset := Math_floor (inject_Z i / inject_Z len) in
  let indexInScale := rem i len in
  match index scaleArray indexInScale with
  | None => NoteNaN
  | Some semitones =>
      let rootIndex := indexOf notes (selectedRoot s) in
      let midiBase := (60 + rootIndex)%Z in
      let midiNote := (midiBase + semitones + (octave s - 4 + octaveOffset) * 12)%Z in
      noteOfMidi midiNote
  end.

(** [createVisualKeyboard()]: the [data-note] of every key, two rounds of
    the scale array. *)
Definition createVisualKeyboard : M (list NoteVal) :=
  s <- getState ;;
  match prop scales (selectedScale s) with
  | None => throw (TypeError "scaleArray is undefined")
  | Some scaleArray =>
      let totalKeys := (List.length scaleArray * 2)%nat in
      forEachIndex (fun i => ret (keyNote s scaleArray i)) 0 totalKeys
  end.

End Keyboard.

(** ** Concrete worlds and frames *)

Module Examples.

(** The world as the page leaves it before the audio is started. *)
Definition world0 : World :=
  mkWorld state0 false false false false None [] [] [] (fun _ => false).

(** The world once the audio is started: both synths, the reverb, the
    canvas and the visualizer exist and the engine accepts every call. *)
Definition worldReady : World :=
  mkWorld (set_audioStarted true state0) true true true true
    (Some BlackHole.create) [] [] [] (fun _ => false).

(** The same world with another scale selected. *)
Definition worldWithScale (scale : string) : World :=
  mkWorld (set_selectedScale scale (set_audioStarted true state0)) true true true true
    (Some BlackHole.create) [] [] [] (fun _ => false).

(** An engine that rejects every release of the melody synth. *)
Definition rejectsMelodyRelease (c : Call) : bool :=
  match c with
  | MelodyTriggerRelease _ => true
  | _ => false
  end.

(** An engine that rejects every release of the harmony synth. *)
Definition rejectsHarmonyRelease (c : Call) : bool :=
  match c with
  | HarmonyReleaseAll _ => true
  | _ => false
  end.

(** An engine that rejects every attack of the melody synth. *)
Definition rejectsMelodyAttack (c : Call) : bool :=
  match c with
  | MelodyTriggerAttack _ _ _ => true
  | _ => false
  end.

Definition withEngine (f : Call -> bool) (w : World) : World :=
  mkWorld (st w) (melodySynth w) (harmonySynth w) (reverb w) (canvas w)
    (blackHole w) (timers w) (calls w) (pulses w) f.

(** A square root exact to six decimals, to instantiate [Math.sqrt]. *)
Definition sqrt_micro (q : Q) : Q :=
  inject_Z (Z.sqrt (Qfloor (q * 1000000000000))) / 1000000.

(** A hand of 21 landmarks with its wrist at height [y]: the index tip is
    0.05 away from the thumb tip and the middle tip 0.06 away. *)
Definition hand_at (y : Q) : Landmarks :=
  let p := mkPoint 0.5 y None in
  [ mkPoint 0.5 y (Some 0); p; p; p; mkPoint 0.5 0.3 (Some 0); p; p; p;
    mkPoint 0.53 0.34 (Some 0); p; p; p; mkPoint 0.5 0.36 None; p; p; p;
    p; p; p; p; p ].

(** A hand cut short after the index tip: nine landmarks, no middle
    finger. *)
Definition short_hand_at (y : Q) : Landmarks := firstn 9 (hand_at y).

(** A frame with a single hand under the given label. *)
Definition frame (label : string) (y : Q) : Results :=
  mkResults (Some [hand_at y]) (Some [label]).

(** Two chord objects built independently with the same notes. *)
Definition chordA : Chord :=
  mkChord (Some "C") "major" [NoteStr "C3"; NoteStr "E3"; NoteStr "G3"] "Cmajor".
Definition chordB : Chord :=
  mkChord (Some "C") "sus4" [NoteStr "C3"; NoteStr "E3"; NoteStr "G3"] "C (copy)".

End Examples.
Import Examples.

(** ** Reading the log of engine calls *)

Module Observations.

(** The number of melody attacks in a log of engine calls. *)
Fixpoint melodyAttacks (l : list Call) : nat :=
  match l with
  | [] => 0
  | MelodyTriggerAttack _ _ _ :: rest => S (melodyAttacks rest)
  | _ :: rest => melodyAttacks rest
  end.

(** The part of the audio graph an engine call addresses. *)
Inductive Target : Type := MelodyVoice | HarmonyVoice | ReverbEffect.

Definition target (c : Call) : Target :=
  match c with
  | MelodyTriggerAttack _ _ _ | MelodyTriggerRelease _ | MelodyDispose
  | MelodyCreate _ | MelodyVolume _ => MelodyVoice
  | HarmonyTriggerAttack _ _ _ | HarmonyReleaseAll _ | HarmonyDispose
  | HarmonyCreate _ | HarmonyVolume _ => HarmonyVoice
  | ReverbWet _ => ReverbEffect
  end.

End Observations.
Import Observations.

(** ** Shapes of the tables and further concrete inputs *)

Module Scenarios.

(** What every array of [scales] has in common: it is not empty, its
    entries are semitone offsets within one octave, it starts on the root
    and ends on the octave above. *)
Definition well_formed_scale (arr : list Z) : Prop :=
  (0 < Z.of_nat (List.length arr))%Z /\
  Forall (fun s => (0 <= s <= 12)%Z) arr /\
  index arr 0 = Some 0%Z /\
  index arr (Z.of_nat (List.length arr) - 1) = Some 12%Z.

(** A note value that is a string, as the synths expect. *)
Definition isNoteName (n : NoteVal) : Prop := exists s, n = NoteStr s.

(** The grid lines of [createNoteMarkers] that carry a label. *)
Definition labelledLines : list Z := [0; 2; 4; 6; 8; 10; 12]%Z.

(** The condition under which the visualizer swells: either hand plays. *)
Definition playing (s : State) : bool := leftHandIsPlaying s || rightHandIsPlaying s.

(** One frame of progress of a ring: [(disc.p + 0.001) % 1]. *)
Definition advance (p : Q) : Q := frac (p + 0.001).

(** The engine calls of the notes [ns] played in a row on a sounding melody
    voice whose last note is [prev]. *)
Fixpoint glides (prev : NoteVal) (ns : list NoteVal) : list Call :=
  match ns with
  | [] => []
  | n :: rest =>
      (if note_sne n (Some prev)
       then [MelodyTriggerRelease (Some 0.02); MelodyTriggerAttack n 0.07 0.7]
       else [])
      ++ glides n rest
  end.

(** [playMelodyNote] on each note of a line, in order. *)
Fixpoint playLine (ns : list NoteVal) : M unit :=
  match ns with
  | [] => ret tt
  | n :: rest => playMelodyNote n ;; playLine rest
  end.

(** The started world with another sound preset selected. *)
Definition worldWithSound (sound : string) : World :=
  mkWorld
    (mkState false false false None None 0 0 None None true DEFAULT_SCALE
       DEFAULT_ROOT DEFAULT_OCTAVE sound false false None None 0.5 0.5)
    true true true true (Some BlackHole.create) [] [] [] (fun _ => false).

(** The started world while the harmony synth holds the given chord. *)
Definition worldHolding (chord : Chord) : World :=
  mkWorld
    (set_lastChord (Some chord)
       (set_currentChord (Some chord)
          (set_leftHandIsPlaying true (set_audioStarted true state0))))
    true true true true (Some BlackHole.create) [] [] [] (fun _ => false).

(** A chord with other notes than [chordA]. *)
Definition chordG : Chord :=
  mkChord (Some "G") "major" [NoteStr "G3"; NoteStr "B3"; NoteStr "D4"] "Gmajor".

(** A frame in which the tracker reports no hand. *)
Definition noHands : Results := mkResults None None.

(** A hand of 21 landmarks whose index tip is 0.02 away from the thumb
    tip. *)
Definition pinching_hand : Landmarks :=
  let p := mkPoint 0.5 0.5 None in
  [ p; p; p; p; mkPoint 0.5 0.3 (Some 0); p; p; p;
    mkPoint 0.5 0.32 (Some 0); p; p; p; p; p; p; p;
    p; p; p; p; p ].

(** A hand of which the tracker delivered the first eight landmarks
    only. *)
Definition stub_hand : Landmarks := firstn 8 (hand_at 0.5).

End Scenarios.
Import Scenarios.

(** * Properties *)

(** ** Arithmetic of the clamps *)

Section Clamps.

Lemma Math_min_spec (a b : Q) :
  (a <= b /\ Math_min a b = a) \/ (b < a /\ Math_min a b = b).
Proof.
  unfold Math_min. destruct (Qle_bool a b) eqn:E.
  - left. split; [now apply Qle_bool_iff | reflexivity].
  - right. split; [| reflexivity].
    apply Qnot_le_lt. intro H. apply Qle_bool_iff in H. congruence.
Qed.

Lemma Math_max_spec (a b : Q) :
  (a <= b /\ Math_max a b = b) \/ (b < a /\ Math_max a b = a).
Proof.
  unfold Math_max. destruct (Qle_bool a b) eqn:E.
  - left. split; [now apply Qle_bool_iff | reflexivity].
  - right. split; [| reflexivity].
    apply Qnot_le_lt. intro H. apply Qle_bool_iff in H. congruence.
Qed.

(** [Math.max(lo, Math.min(hi, v))] lands between [lo] and [hi]. *)
Lemma clamp_bounds (lo hi v : Q) :
  lo <= hi -> lo <= Math_max lo (Math_min hi v) <= hi.
Proof.
  intros Hle.
  destruct (Math_min_spec hi v) as [[H1 E1] | [H1 E1]]; rewrite E1.
  - destruct (Math_max_spec lo hi) as [[H2 E2] | [H2 E2]]; rewrite E2; split; lra.
  - destruct (Math_max_spec lo v) as [[H2 E2] | [H2 E2]]; rewrite E2; split; lra.
Qed.

(** The same clamp with the arguments of [Math.min] in the order of
    synth.js and hand-detector.js. *)
Lemma clamp01_bounds (v : Q) : 0 <= Math_max 0 (Math_min v 1) <= 1.
Proof.
  destruct (Math_min_spec v 1) as [[H1 E1] | [H1 E1]]; rewrite E1.
  - destruct (Math_max_spec 0 v) as [[H2 E2] | [H2 E2]]; rewrite E2; split; lra.
  - destruct (Math_max_spec 0 1) as [[H2 E2] | [H2 E2]]; rewrite E2; split; lra.
Qed.

(** The inverted mapping of a vertical position onto [n + 1] slots stays
    within the slots. *)
Lemma position_range (y : Q) (n : Z) :
  (0 <= n)%Z ->
  (0 <= Math_floor (mapRange y 0.0 1.0 (inject_Z n) 0) <= n)%Z.
Proof.
  intros Hn. unfold Math_floor, mapRange.
  pose proof (clamp_bounds 0.0 1.0 y ltac:(lra)) as [Hlo Hhi].
  set (v := Math_max 0.0 (Math_min 1.0 y)) in *.
  assert (Hn' : 0 <= inject_Z n) by (rewrite (Zle_Qle 0 n) in Hn; exact Hn).
  assert (E : (v - 0.0) * (0 - inject_Z n) / (1.0 - 0.0) + inject_Z n
              == inject_Z n * (1 - v)) by field.
  rewrite E. split.
  - rewrite <- (Qfloor_Z 0). apply Qfloor_resp_le.
    change (inject_Z 0) with 0. nra.
  - rewrite <- (Qfloor_Z n) at 2. apply Qfloor_resp_le. nra.
Qed.

End Clamps.

(** ** Melody mapping *)

Section MelodyMapping.

(** C1.  In C major at octave 4, vertical position 0.0 falls on
    scale-step index 14 and 1.0 on index 0, the two ends of the range of
    indices; a position whose index is 0 sounds "C4" and one whose index
    is 7 sounds "C5". *)
Theorem getNote_boundaries_C_major (w : World) (y0 y7 : Q)
    (Hroot : selectedRoot (st w) = "C")
    (Hoctave : octave (st w) = 4%Z)
    (H0 : Math_floor (mapRange y0 0.0 1.0 14 0) = 0%Z)
    (H7 : Math_floor (mapRange y7 0.0 1.0 14 0) = 7%Z) :
  Math_floor (mapRange 0.0 0.0 1.0 14 0) = 14%Z /\
  Math_floor (mapRange 1.0 0.0 1.0 14 0) = 0%Z /\
  (forall y, (0 <= Math_floor (mapRange y 0.0 1.0 14 0) <= 14)%Z) /\
  fst (getNoteFromPosition y0 "major" w) = Ok (NoteStr "C4") /\
  fst (getNoteFromPosition y7 "major" w) = Ok (NoteStr "C5").
Proof.
  split; [reflexivity |].
  split; [reflexivity |].
  split; [intro y; apply (position_range y 14); lia |].
  split.
  - unfold getNoteFromPosition, bind, getState, modifyState.
    cbv beta iota zeta. rewrite H0, Hroot, Hoctave. reflexivity.
  - unfold getNoteFromPosition, bind, getState, modifyState.
    cbv beta iota zeta. rewrite H7, Hroot, Hoctave. reflexivity.
Qed.

Lemma getNote_boundaries_C_major_witness :
  Math_floor (mapRange 0.0 0.0 1.0 14 0) = 14%Z /\
  Math_floor (mapRange 1.0 0.0 1.0 14 0) = 0%Z /\
  (forall y, (0 <= Math_floor (mapRange y 0.0 1.0 14 0) <= 14)%Z) /\
  fst (getNoteFromPosition 1.0 "major" world0) = Ok (NoteStr "C4") /\
  fst (getNoteFromPosition 0.5 "major" world0) = Ok (NoteStr "C5").
Proof.
  apply (getNote_boundaries_C_major world0 1.0 0.5); reflexivity.
Defined.

End MelodyMapping.

(** ** Missing landmarks *)

Section MissingLandmarks.

Variable Math_sqrt : Q -> Q.

(** C10.  [calculateDistance] returns [Infinity] as soon as one of its
    points is missing, whatever the other one is, and both gesture
    mappings send that distance to 1. *)
Theorem calculateDistance_missing_point (p : option Point) :
  calculateDistance Math_sqrt None p = Infinity /\
  calculateDistance Math_sqrt p None = Infinity /\
  mapPinchToReverb (calculateDistance Math_sqrt None p) = 1 /\
  mapPinchToReverb (calculateDistance Math_sqrt p None) = 1 /\
  mapFingerToVolume (calculateDistance Math_sqrt None p) = 1 /\
  mapFingerToVolume (calculateDistance Math_sqrt p None) = 1.
Proof.
  assert (E : calculateDistance Math_sqrt p None = Infinity)
    by (destruct p; reflexivity).
  rewrite E. repeat split; reflexivity.
Qed.

(** In a frame, a hand without a middle-finger landmark has its gain
    written as 1 and its chord played before the drawing code fails on the
    missing point; the failure stays inside [onHandResults]. *)
Lemma short_hand_saturates_gain :
  let r := onHandResults sqrt_micro
             (mkResults (Some [short_hand_at 0.5]) (Some ["Right"])) worldReady in
  fst r = Ok tt /\
  map target (calls (snd r)) = [ReverbEffect; HarmonyVoice; HarmonyVoice] /\
  nth 1 (calls (snd r)) (ReverbWet 0) = HarmonyVolume (1 * 0.6) /\
  leftHandIsPlaying (st (snd r)) = true.
Proof. cbv zeta. repeat split; vm_compute; reflexivity. Qed.

End MissingLandmarks.

(** ** Pulse decay *)

Section PulseDecay.

Lemma tick_pulseIntensity (s : State) (bh : BlackHole.t) :
  BlackHole.pulseIntensity (BlackHole.tick s bh)
  = BlackHole.pulseIntensity bh * 0.95.
Proof.
  unfold BlackHole.tick.
  destruct (leftHandIsPlaying s || rightHandIsPlaying s); reflexivity.
Qed.

Lemma ticks_pulseIntensity (frames : list State) :
  forall bh : BlackHole.t,
    BlackHole.pulseIntensity (BlackHole.ticks frames bh)
    == BlackHole.pulseIntensity bh * 0.95 ^ Z.of_nat (List.length frames).
Proof.
  induction frames as [| s frames IH]; intro bh.
  - simpl. rewrite Qmult_1_r. reflexivity.
  - cbn [BlackHole.ticks List.length]. rewrite IH, tick_pulseIntensity.
    rewrite Nat2Z.inj_succ, <- Z.add_1_l.
    rewrite Qpower_plus by (intro H; discriminate H).
    rewrite Qpower_1_r. ring.
Qed.

(** C9.  After a pulse of 1.0, and with no further pulse, the intensity
    after [N] ticks of the render loop is [0.95 ^ N], which is strictly
    positive for every [N]. *)
Theorem pulse_decay (frames : list State) (bh : BlackHole.t) :
  let bh' := BlackHole.ticks frames (BlackHole.pulse 1.0 bh) in
  BlackHole.pulseIntensity bh' == 0.95 ^ Z.of_nat (List.length frames) /\
  0 < BlackHole.pulseIntensity bh'.
Proof.
  cbv zeta.
  assert (E : BlackHole.pulseIntensity
                (BlackHole.ticks frames (BlackHole.pulse 1.0 bh))
              == 0.95 ^ Z.of_nat (List.length frames)).
  { rewrite ticks_pulseIntensity. cbn [BlackHole.pulse BlackHole.pulseIntensity].
    setoid_replace 1.0 with 1 by reflexivity. ring. }
  split; [exact E |].
  rewrite E. apply Qpower_0_lt. reflexivity.
Qed.

End PulseDecay.

(** ** Evaluating the operations of synth.js *)

Arguments note_sne : simpl never.
Arguments chordChanged : simpl never.
Arguments JSON_stringify : simpl never.
Arguments num_sne : simpl never.
Arguments Math_max : simpl never.
Arguments Math_min : simpl never.
Arguments String.eqb : simpl never.
Arguments includes : simpl never.
Arguments Qmult : simpl never.

(** Unfolding of the monad. *)
Ltac run :=
  unfold bind, getWorld, getState, modifyState, try_catch, engine, pulseBlackHole,
         updateNoteDisplay, setTimeout, ret, when, throw, set_melodySynth,
         set_harmonySynth.

(** Evaluation of the string comparisons between literals. *)
Ltac eqb_literals :=
  repeat match goal with
         | |- context [String.eqb ?a ?b] =>
             let r := eval vm_compute in (String.eqb a b) in
             match r with
             | true => change (String.eqb a b) with true
             | false => change (String.eqb a b) with false
             end
         end.


(** Splitting a world into the fields of its records. *)
Ltac open_world w :=
  destruct w as [s_ ms_ hs_ rv_ cv_ bh_ tm_ cl_ pl_ fa_];
  destruct s_ as [hd_ lp_ rp_ ll_ rl_ ly_ lly_ lmn_ lc_ au_ sc_ sr_ oc_ ss_
                  lpl_ rpl_ cmn_ cc_ lv_ rvol_];
  cbn in *; subst.

Section VoiceUpdates.

Lemma note_sne_refl (n : string) : note_sne (NoteStr n) (Some (NoteStr n)) = false.
Proof. unfold note_sne. now rewrite String.eqb_refl. Qed.

Lemma chordChanged_same_notes (c1 c2 : Chord) :
  chord_notes c1 = chord_notes c2 -> chordChanged c2 (Some c1) = false.
Proof.
  intro H. unfold chordChanged. rewrite H. now rewrite String.eqb_refl.
Qed.

Lemma melodyAttacks_app (l1 l2 : list Call) :
  melodyAttacks (l1 ++ l2) = (melodyAttacks l1 + melodyAttacks l2)%nat.
Proof.
  induction l1 as [| c l1 IH]; [reflexivity |].
  destruct c; cbn; rewrite IH; reflexivity.
Qed.

(** C3.  When [playMelodyNote] is called twice in a row with the same
    note and the engine accepts its calls, the second call changes
    nothing: no engine call, no pulse, no timer.  The two calls together
    issue at most one attack, and from an idle voice they issue exactly
    the attack of the first call. *)
Theorem playMelodyNote_twice_same_note (w : World) (n : string)
    (Hok : forall c, faulty w c = false) :
  let note := NoteStr n in
  let w1 := snd (playMelodyNote note w) in
  let w2 := snd (playMelodyNote note w1) in
  playMelodyNote note w1 = (Ok tt, w1) /\
  (melodyAttacks (calls w2) <= S (melodyAttacks (calls w)))%nat /\
  (audioStarted (st w) = true -> melodySynth w = true ->
   rightHandIsPlaying (st w) = false ->
   calls w2 = calls w ++ [MelodyTriggerAttack note 0 0.8]).
Proof.
  cbv zeta.
  assert (Hsecond : playMelodyNote (NoteStr n) (snd (playMelodyNote (NoteStr n) w))
                    = (Ok tt, snd (playMelodyNote (NoteStr n) w))).
  { open_world w. unfold playMelodyNote. run. cbn.
    destruct au_; cbn; [| reflexivity].
    destruct ms_; cbn; [| reflexivity].
    destruct rpl_; cbn.
    - destruct (note_sne (NoteStr n) lmn_); cbn; rewrite ?Hok; cbn;
        rewrite ?Hok; cbn; rewrite note_sne_refl; reflexivity.
    - rewrite Hok. cbn. rewrite note_sne_refl. reflexivity. }
  split; [exact Hsecond |].
  rewrite Hsecond. cbn [snd]. split.
  - open_world w. unfold playMelodyNote. run. cbn.
    destruct au_; cbn; [| lia].
    destruct ms_; cbn; [| lia].
    destruct rpl_; cbn.
    + destruct (note_sne (NoteStr n) lmn_); cbn; rewrite ?Hok; cbn;
        rewrite ?Hok; cbn; rewrite ?melodyAttacks_app; cbn; lia.
    + rewrite Hok. cbn. rewrite melodyAttacks_app. cbn. lia.
  - intros Hstarted Hsynth Hidle.
    open_world w. unfold playMelodyNote. run. cbn. rewrite Hok. reflexivity.
Qed.

Lemma playMelodyNote_twice_same_note_witness :
  let note := NoteStr "C4" in
  let w1 := snd (playMelodyNote note worldReady) in
  let w2 := snd (playMelodyNote note w1) in
  playMelodyNote note w1 = (Ok tt, w1) /\
  (melodyAttacks (calls w2) <= S (melodyAttacks (calls worldReady)))%nat /\
  calls w2 = calls worldReady ++ [MelodyTriggerAttack note 0 0.8].
Proof.
  destruct (playMelodyNote_twice_same_note worldReady "C4" (fun c => eq_refl))
    as [H1 [H2 H3]].
  split; [exact H1 |]. split; [exact H2 |].
  apply H3; reflexivity.
Defined.

(** The part of C2 that holds.  A chord whose note sequence equals that
    of the chord recorded in [state.lastChord] is not a change, whatever
    its other fields are: when the voice is playing, [playChord] returns
    without an engine call, a timer or a pulse, and leaves the world as it
    was.  In particular the call that follows the onset of an equal chord
    is such a call. *)
Lemma playChord_equal_notes_unchanged (w : World) (c1 c2 : Chord)
    (Hnotes : chord_notes c1 = chord_notes c2) :
  (leftHandIsPlaying (st w) = true -> lastChord (st w) = Some c1 ->
   playChord c2 w = (Ok tt, w)) /\
  (audioStarted (st w) = true -> harmonySynth w = true ->
   leftHandIsPlaying (st w) = false ->
   faulty w (HarmonyTriggerAttack (chord_notes c1) 0 0.6) = false ->
   let w1 := snd (playChord c1 w) in
   calls w1 = calls w ++ [HarmonyTriggerAttack (chord_notes c1) 0 0.6] /\
   playChord c2 w1 = (Ok tt, w1)).
Proof.
  pose proof (chordChanged_same_notes c1 c2 Hnotes) as Hsame.
  split.
  - intros Hplaying Hlast. open_world w. unfold playChord. run. cbn.
    rewrite Hsame. destruct (negb au_ || negb hs_); reflexivity.
  - intros Hstarted Hsynth Hidle Hok. cbv zeta.
    open_world w. unfold playChord. run. cbn. rewrite Hok. cbn.
    rewrite Hsame. split; reflexivity.
Qed.

Lemma playChord_equal_notes_unchanged_witness :
  let w1 := snd (playChord chordA worldReady) in
  calls w1 = [HarmonyTriggerAttack (chord_notes chordA) 0 0.6] /\
  playChord chordB w1 = (Ok tt, w1) /\
  playChord chordB w1 = (Ok tt, w1).
Proof.
  destruct (playChord_equal_notes_unchanged worldReady chordA chordB eq_refl)
    as [_ H2].
  destruct (H2 eq_refl eq_refl eq_refl eq_refl) as [Hcalls Hsecond].
  split; [exact Hcalls |]. split; [exact Hsecond |].
  exact (proj1 (playChord_equal_notes_unchanged
                  (snd (playChord chordA worldReady)) chordA chordB eq_refl)
               eq_refl eq_refl).
Defined.

(** While a chord change is pending, the recorded chord is still the one
    that sounds: the timers that record the new chord have not fired, and
    a further call is compared with the old chord. *)
Lemma playChord_pending_change_compares_with_sounding_chord :
  let chordC := mkChord (Some "B") "diminished"
                  [NoteStr "B3"; NoteStr "D4"; NoteStr "F4"] "Bdim" in
  let w := snd ((playChord chordA ;; playChord chordC ;; playChord chordC) worldReady) in
  option_map chord_notes (lastChord (st w)) = Some (chord_notes chordA) /\
  calls w = [HarmonyTriggerAttack (chord_notes chordA) 0 0.6;
             HarmonyReleaseAll (Some (- 0.005));
             HarmonyReleaseAll (Some (- 0.005))] /\
  timers w = [(150%Z, RebuildHarmony chordC); (150%Z, RebuildHarmony chordC)].
Proof. cbv zeta. repeat split. Qed.

(** In every state in which a chord change starts, the record
    [state.lastChord] keeps the chord that sounded before, and a second
    chord with the notes of the new one is a change again: a second
    release, a second rebuild. *)
Lemma playChord_change_in_flight (w : World) (c0 c1 c2 : Chord)
    (Hnotes : chord_notes c1 = chord_notes c2)
    (Hstarted : audioStarted (st w) = true)
    (Hharmony : harmonySynth w = true)
    (Hplaying : leftHandIsPlaying (st w) = true)
    (Hlast : lastChord (st w) = Some c0)
    (Hchanged : chordChanged c1 (Some c0) = true)
    (Hok : forall c, faulty w c = false) :
  let w1 := snd (playChord c1 w) in
  let w2 := snd (playChord c2 w1) in
  lastChord (st w1) = Some c0 /\
  leftHandIsPlaying (st w1) = true /\
  calls w2 = calls w ++ [HarmonyReleaseAll (Some (- 0.005));
                         HarmonyReleaseAll (Some (- 0.005))] /\
  timers w2 = timers w ++ [(150%Z, RebuildHarmony c1); (150%Z, RebuildHarmony c2)].
Proof.
  cbv zeta.
  assert (Hchanged' : chordChanged c2 (Some c0) = true).
  { revert Hchanged. unfold chordChanged. now rewrite Hnotes. }
  open_world w. unfold playChord. run. cbn. rewrite Hchanged. cbn.
  rewrite ?Hok. cbn. rewrite Hchanged'. cbn. rewrite ?Hok. cbn.
  rewrite <- !app_assoc. repeat split; reflexivity.
Qed.

(** C2, at the failing input.  The harmony voice sounds C major.  A call
    with B diminished starts a chord change; the next call, before the
    timers of the change have fired, carries an independently built chord
    with the same notes.  [state.lastChord] still holds C major, so the
    call is taken for a change: it releases all notes again and schedules
    a second rebuild, and a further such call would do so again.  Once
    the four timers have fired, the harmony synth has been disposed and
    created twice and the chord attacked twice. *)
Theorem equal_chord_retriggers_during_change :
  let chordC1 := mkChord (Some "B") "diminished"
                   [NoteStr "B3"; NoteStr "D4"; NoteStr "F4"] "Bdim" in
  let chordC2 := mkChord (Some "B") "diminished"
                   [NoteStr "B3"; NoteStr "D4"; NoteStr "F4"] "Bdim (copy)" in
  let w0 := snd (playChord chordA worldReady) in
  let w1 := snd (playChord chordC1 w0) in
  let w2 := snd (playChord chordC2 w1) in
  let w3 := snd ((fire 0 ;; fire 0 ;; fire 0 ;; fire 0) w2) in
  chord_notes chordC1 = chord_notes chordC2 /\
  leftHandIsPlaying (st w1) = true /\
  calls w1 = [HarmonyTriggerAttack (chord_notes chordA) 0 0.6;
              HarmonyReleaseAll (Some (- 0.005))] /\
  timers w1 = [(150%Z, RebuildHarmony chordC1)] /\
  lastChord (st w1) = Some chordA /\
  calls w2 = calls w1 ++ [HarmonyReleaseAll (Some (- 0.005))] /\
  timers w2 = [(150%Z, RebuildHarmony chordC1); (150%Z, RebuildHarmony chordC2)] /\
  playChord chordC2 w2 <> (Ok tt, w2) /\
  timers w3 = [] /\
  calls w3 = calls w2
             ++ [HarmonyDispose; HarmonyCreate "pad"; HarmonyVolume (0.5 * 0.6);
                 HarmonyDispose; HarmonyCreate "pad"; HarmonyVolume (0.5 * 0.6);
                 HarmonyTriggerAttack (chord_notes chordC1) 0.05 0.6;
                 HarmonyTriggerAttack (chord_notes chordC2) 0.05 0.6] /\
  pulses w3 = [1.0; 1.2; 1.2].
Proof.
  cbv zeta. repeat split; try reflexivity.
  intro H. apply (f_equal (fun r => List.length (timers (snd r)))) in H.
  vm_compute in H. discriminate H.
Qed.

End VoiceUpdates.

(** ** Control levels: gain and reverb *)

Section ControlLevels.

Lemma num_sne_same (a : Q) : num_sne a a = false.
Proof. unfold num_sne. now rewrite Qeq_bool_refl. Qed.





End ControlLevels.

(** ** Pulse intensities *)

Section Pulses.

(** The pulse of a chord change is one of three constants. *)
Lemma chordChangePulse_values (chord : Chord) :
  chordChangePulse chord = 1.0 \/ chordChangePulse chord = 1.2 \/
  chordChangePulse chord = 0.8.
Proof.
  unfold chordChangePulse.
  destruct (includes (type chord) "7"); [now left |].
  destruct (String.eqb (type chord) "diminished"); [right; now left |].
  right; now right.
Qed.

(** C7, at the failing input.  In C major at octave 4 the harmony hand
    enters at the bottom of the frame (a C major chord) and moves next to
    the top (a B diminished chord); once the two timers of the chord change
    have fired, the pulse emitted for the change is 1.2, it is the value
    stored as [pulseIntensity], and it exceeds 1. *)
Theorem diminished_chord_change_pulse :
  let frames :=
    onHandResults sqrt_micro (frame "Right" 1) ;;
    onHandResults sqrt_micro (frame "Right" 0.1) ;;
    fire 0 ;; fire 0 in
  let w := snd (frames worldReady) in
  fst (frames worldReady) = Ok tt /\
  option_map type (currentChord (st w)) = Some "diminished" /\
  pulses w = [1.0; 1.2] /\
  option_map BlackHole.pulseIntensity (blackHole w) = Some 1.2 /\
  ~ 1.2 <= 1.
Proof.
  cbv zeta. repeat split; try (vm_compute; reflexivity).
  intro H. vm_compute in H. apply H. reflexivity.
Qed.

End Pulses.

(** ** Engine failures *)

Section EngineFailures.

Lemma try_catch_returns (body : M unit) (w : World) :
  exists w', try_catch body w = (Ok tt, w').
Proof.
  unfold try_catch. destruct (body w) as [[u | e] w']; eexists; reflexivity.
Qed.

(** The operations whose engine calls sit inside a [try] block return
    normally whatever the engine does. *)
Lemma playMelodyNote_returns (note : NoteVal) (w : World) :
  exists w', playMelodyNote note w = (Ok tt, w').
Proof.
  unfold playMelodyNote, bind, getWorld.
  destruct (negb (audioStarted (st w)) || negb (melodySynth w)).
  - eexists; reflexivity.
  - unfold modifyState. apply try_catch_returns.
Qed.

Lemma playChord_returns (chord : Chord) (w : World) :
  exists w', playChord chord w = (Ok tt, w').
Proof.
  unfold playChord, bind, getWorld.
  destruct (negb (audioStarted (st w)) || negb (harmonySynth w)).
  - eexists; reflexivity.
  - apply try_catch_returns.
Qed.

Lemma updateSynths_returns (w : World) :
  exists w', updateSynths w = (Ok tt, w').
Proof. apply try_catch_returns. Qed.

Lemma onHandResults_returns (Math_sqrt : Q -> Q) (results : Results) (w : World) :
  exists w', onHandResults Math_sqrt results w = (Ok tt, w').
Proof. apply try_catch_returns. Qed.

(** An attack rejected at the onset leaves the melody voice idle: only
    the last requested note is recorded. *)
Lemma rejected_onset_leaves_melody_idle (note : NoteVal) (w : World) :
  audioStarted (st w) = true -> melodySynth w = true ->
  rightHandIsPlaying (st w) = false ->
  faulty w (MelodyTriggerAttack note 0 0.8) = true ->
  exists w', playMelodyNote note w = (Ok tt, w') /\
             rightHandIsPlaying (st w') = false /\ calls w' = calls w.
Proof.
  intros Hstarted Hsynth Hidle Hbad. open_world w.
  unfold playMelodyNote. run. cbn. rewrite Hbad.
  eexists. split; [reflexivity |]. split; reflexivity.
Qed.

(** C8, at the failing inputs.  [stopMelody] and [stopChord] have no
    [try] block: when the engine rejects the release, the exception leaves
    the operation and the voice is still marked as playing.  When the
    engine rejects the attack of a note change, [playMelodyNote] catches
    the exception but the voice stays marked as playing after its release,
    and the next call with the same note does not attack again. *)
Theorem stop_operations_propagate_engine_failure :
  (let w := withEngine rejectsMelodyRelease
              (snd (playMelodyNote (NoteStr "C4") worldReady)) in
   stopMelody w = (Throw (EngineError (MelodyTriggerRelease None)), w) /\
   rightHandIsPlaying (st w) = true) /\
  (let w := withEngine rejectsHarmonyRelease (snd (playChord chordA worldReady)) in
   stopChord w = (Throw (EngineError (HarmonyReleaseAll None)), w) /\
   leftHandIsPlaying (st w) = true) /\
  (let w := withEngine rejectsMelodyAttack
              (snd (playMelodyNote (NoteStr "C4") worldReady)) in
   let w1 := snd (playMelodyNote (NoteStr "D4") w) in
   calls w1 = calls w ++ [MelodyTriggerRelease (Some 0.02)] /\
   rightHandIsPlaying (st w1) = true /\
   playMelodyNote (NoteStr "D4") w1 = (Ok tt, w1)).
Proof.
  cbv zeta. repeat split; vm_compute; reflexivity.
Qed.

End EngineFailures.

(** ** Scales without a chord-type table *)

Section ScaleFallback.

Lemma rem_nonneg (a b : Z) : (0 <= a)%Z -> (0 <= rem a b)%Z.
Proof.
  intro Ha. unfold rem. destruct (Z.eq_dec b 0) as [-> | Hb].
  - destruct a; cbn; lia.
  - apply Z.rem_nonneg; assumption.
Qed.

Lemma small_index_cases (i : Z) :
  (0 <= i < 7)%Z ->
  i = 0%Z \/ i = 1%Z \/ i = 2%Z \/ i = 3%Z \/ i = 4%Z \/ i = 5%Z \/ i = 6%Z.
Proof. lia. Qed.

(** Every chord type that [getChordFromPosition] can select has an
    interval set, whatever the scale identifier is. *)
Lemma chordTypeOf_defined (scale : string) (scaleDegree : Z) :
  (0 <= scaleDegree)%Z ->
  exists chordType intervals,
    chordTypeOf scale scaleDegree = Some chordType /\
    prop chordTypes chordType = Some intervals.
Proof.
  intro Hdeg. unfold chordTypeOf.
  assert (Hi : (0 <= rem scaleDegree 7 < 7)%Z)
    by (unfold rem; apply Z.rem_bound_pos; lia).
  destruct (String.eqb scale "major");
    [| destruct (String.eqb scale "minor");
       [| destruct (String.eqb scale "majorBlues");
          [| destruct (String.eqb scale "minorBlues")]]].
  1-4: destruct (small_index_cases _ Hi) as [E | [E | [E | [E | [E | [E | E]]]]]];
       rewrite E; vm_compute; eexists; eexists; split; reflexivity.
  destruct (rem scaleDegree 2 =? 0)%Z; vm_compute; eexists; eexists;
    split; reflexivity.
Qed.

(** Outside the four scales with a table of their own, the chord type is
    decided by the parity of the scale degree. *)
Lemma chordTypeOf_fallback (scale : string) (scaleDegree : Z) :
  scale <> "major" -> scale <> "minor" ->
  scale <> "majorBlues" -> scale <> "minorBlues" ->
  chordTypeOf scale scaleDegree
  = Some (if (rem scaleDegree 2 =? 0)%Z then "major" else "minor").
Proof.
  intros H1 H2 H3 H4. unfold chordTypeOf.
  apply String.eqb_neq in H1, H2, H3, H4. now rewrite H1, H2, H3, H4.
Qed.

(** With a scale that is a key of [scales], [getChordFromPosition] returns
    a chord and only records the position. *)
Lemma getChordFromPosition_defined (w : World) (y : Q) (scaleArray : list Z) :
  prop scales (selectedScale (st w)) = Some scaleArray ->
  exists chord,
    getChordFromPosition y w
    = (Ok chord, snd (modifyState (set_lastLeftHandY y) w)) /\
    chordTypeOf (selectedScale (st w))
      (rem (Math_floor (mapRange y 0.0 1.0 7 0)) (Z.of_nat (List.length scaleArray)))
    = Some (type chord).
Proof.
  intro Hkey.
  unfold getChordFromPosition, bind, getState, modifyState.
  cbv beta iota zeta. rewrite Hkey.
  set (position := Math_floor (mapRange y 0.0 1.0 7 0)).
  set (scaleDegree := rem position (Z.of_nat (List.length scaleArray))).
  assert (Hdeg : (0 <= scaleDegree)%Z).
  { apply rem_nonneg. apply (position_range y 7). lia. }
  destruct (chordTypeOf_defined (selectedScale (st w)) scaleDegree Hdeg)
    as [chordType [intervals [Htype Hintervals]]].
  rewrite Htype, Hintervals. eexists. split; reflexivity.
Qed.

(** With a scale that is a key of [scales], [getNoteFromPosition] returns
    a note value and only records the position. *)
Lemma getNoteFromPosition_defined (w : World) (y : Q) (scale : string)
    (scaleArray : list Z) :
  prop scales scale = Some scaleArray ->
  exists note,
    getNoteFromPosition y scale w
    = (Ok note, snd (modifyState (set_lastRightHandY y) w)).
Proof.
  intro Hkey.
  unfold getNoteFromPosition, bind, getState, modifyState.
  cbv beta iota zeta. rewrite Hkey.
  match goal with
  | |- context [index scaleArray ?i] => destruct (index scaleArray i)
  end; eexists; reflexivity.
Qed.

(** C5, the counterexample.  A scale identifier that is not a key of
    [scales] makes both functions throw. *)
Lemma unknown_scale_throws :
  fst (getChordFromPosition 0.5 (worldWithScale "dorian"))
  = Throw (TypeError "scaleArray is undefined") /\
  fst (getNoteFromPosition 0.5 "dorian" worldReady)
  = Throw (TypeError "scaleArray is undefined").
Proof. split; reflexivity. Qed.

(** C5, as amended.  For every scale identifier that is a key of [scales]
    and is not one of major, minor, majorBlues and minorBlues (that is,
    pentatonic and chromatic), [getChordFromPosition] returns a chord whose
    type is major on an even scale degree and minor on an odd one; and
    [getNoteFromPosition] returns a note for every key of [scales]. *)
Theorem chord_parity_fallback (w : World) (y : Q) (scaleArray : list Z)
    (Hkey : prop scales (selectedScale (st w)) = Some scaleArray) :
  let position := Math_floor (mapRange y 0.0 1.0 7 0) in
  let scaleDegree := rem position (Z.of_nat (List.length scaleArray)) in
  (selectedScale (st w) <> "major" ->
   selectedScale (st w) <> "minor" ->
   selectedScale (st w) <> "majorBlues" ->
   selectedScale (st w) <> "minorBlues" ->
   exists chord,
     fst (getChordFromPosition y w) = Ok chord /\
     type chord = if (rem scaleDegree 2 =? 0)%Z then "major" else "minor") /\
  (forall (scale : string) (notesOfScale : list Z),
     prop scales scale = Some notesOfScale ->
     exists note, fst (getNoteFromPosition y scale w) = Ok note).
Proof.
  cbv zeta. split.
  - intros Hmajor Hminor HmajorBlues HminorBlues.
    destruct (getChordFromPosition_defined w y scaleArray Hkey)
      as [chord [Hrun Htype]].
    exists chord. rewrite Hrun. split; [reflexivity |].
    rewrite chordTypeOf_fallback in Htype by assumption.
    now inversion Htype.
  - intros scale notesOfScale Hscale.
    destruct (getNoteFromPosition_defined w y scale notesOfScale Hscale)
      as [note Hrun].
    exists note. now rewrite Hrun.
Qed.

Lemma chord_parity_fallback_witness :
  (exists chord,
     fst (getChordFromPosition 0.5 (worldWithScale "pentatonic")) = Ok chord /\
     type chord = "minor") /\
  (exists note,
     fst (getNoteFromPosition 0.5 "pentatonic" (worldWithScale "pentatonic"))
     = Ok note).
Proof.
  destruct (chord_parity_fallback (worldWithScale "pentatonic") 0.5
              [0; 2; 4; 7; 9; 12]%Z eq_refl) as [Hchord Hnote].
  split.
  - apply Hchord; intro H; discriminate H.
  - exact (Hnote "pentatonic" [0; 2; 4; 7; 9; 12]%Z eq_refl).
Defined.

End ScaleFallback.

(** ** Hand labels and voices *)

Arguments getNoteFromPosition : simpl never.
Arguments getChordFromPosition : simpl never.
Arguments mapPinchToReverb : simpl never.
Arguments mapFingerToVolume : simpl never.
Arguments calculateDistance : simpl never.

(** A hand of 21 landmarks, landmark by landmark. *)
Ltac split_landmarks lm H :=
  do 21 (destruct lm as [| ? lm]; [discriminate H |]);
  destruct lm; [| discriminate H].

Section HandRoles.

Variable Math_sqrt : Q -> Q.

Lemma clamp01_idem (r : Q) : 0 <= r <= 1 -> Math_max 0 (Math_min r 1) = r.
Proof.
  intros [H0 H1]. unfold Math_max, Math_min.
  assert (E1 : Qle_bool r 1 = true) by now apply Qle_bool_iff.
  assert (E0 : Qle_bool 0 r = true) by now apply Qle_bool_iff.
  now rewrite E1, E0.
Qed.

Lemma mapPinchToReverb_bounds (d : Num) : 0 <= mapPinchToReverb d <= 1.
Proof.
  unfold mapPinchToReverb. destruct d as [q |]; cbn [Num_sub Num_div Num_min].
  - apply clamp01_bounds.
  - unfold Math_max. cbn. split; discriminate.
Qed.

Lemma mapFingerToVolume_bounds (d : Num) : 0 <= mapFingerToVolume d <= 1.
Proof. exact (mapPinchToReverb_bounds d). Qed.

(** The note depends on the world through the root and the octave only. *)
Lemma getNoteFromPosition_same_key (w1 w2 : World) (y : Q) (scale : string) :
  selectedRoot (st w1) = selectedRoot (st w2) ->
  octave (st w1) = octave (st w2) ->
  fst (getNoteFromPosition y scale w1) = fst (getNoteFromPosition y scale w2).
Proof.
  intros Hroot Hoct.
  unfold getNoteFromPosition, bind, getState, modifyState.
  cbv beta iota zeta. rewrite Hroot, Hoct.
  destruct (prop scales scale); [| reflexivity].
  match goal with
  | |- context [index ?l ?i] => destruct (index l i)
  end; reflexivity.
Qed.

Lemma getNoteFromPosition_run (w W : World) (y : Q) (scale : string) (note : NoteVal) :
  fst (getNoteFromPosition y scale w) = Ok note ->
  selectedRoot (st W) = selectedRoot (st w) ->
  octave (st W) = octave (st w) ->
  getNoteFromPosition y scale W
  = (Ok note, snd (modifyState (set_lastRightHandY y) W)).
Proof.
  intros Hnote Hroot Hoct.
  rewrite <- (getNoteFromPosition_same_key W w y scale Hroot Hoct) in Hnote.
  revert Hnote.
  unfold getNoteFromPosition, bind, getState, modifyState.
  cbv beta iota zeta.
  destruct (prop scales scale); [| discriminate].
  match goal with
  | |- context [index ?l ?i] => destruct (index l i)
  end; cbn [fst]; intro H; inversion H; reflexivity.
Qed.

(** The chord depends on the world through the scale, the root and the
    octave only. *)
Lemma getChordFromPosition_run (w W : World) (y : Q) (chord : Chord) :
  fst (getChordFromPosition y w) = Ok chord ->
  selectedScale (st W) = selectedScale (st w) ->
  selectedRoot (st W) = selectedRoot (st w) ->
  octave (st W) = octave (st w) ->
  getChordFromPosition y W
  = (Ok chord, snd (modifyState (set_lastLeftHandY y) W)).
Proof.
  intros Hchord Hscale Hroot Hoct. revert Hchord.
  unfold getChordFromPosition, bind, getState, modifyState.
  cbv beta iota zeta. rewrite Hscale, Hroot, Hoct.
  destruct (prop scales (selectedScale (st w))); [| discriminate].
  match goal with
  | |- context [chordTypeOf ?s ?d] => destruct (chordTypeOf s d)
  end; [| discriminate].
  match goal with
  | |- context [prop chordTypes ?t] => destruct (prop chordTypes t)
  end; [| discriminate].
  cbn [fst]. intro H. inversion H. reflexivity.
Qed.



End HandRoles.

Section LabelDispatch.




End LabelDispatch.

(** * Further properties *)

(** ** Pending timers, and evaluation by unfolding *)

Lemma nth_error_appended {A : Type} (l : list A) (x : A) :
  nth_error (l ++ [x]) (List.length l) = Some x.
Proof. rewrite nth_error_app2 by lia. now rewrite Nat.sub_diag. Qed.

Lemma remove_appended {A : Type} (l : list A) (x : A) :
  firstn (List.length l) (l ++ [x]) ++ skipn (S (List.length l)) (l ++ [x]) = l.
Proof.
  rewrite firstn_app, Nat.sub_diag, firstn_all. cbn [firstn].
  rewrite skipn_all2 by (rewrite length_app; cbn; lia).
  now rewrite !app_nil_r.
Qed.

Ltac fire_appended :=
  unfold fire; cbn [timers];
  rewrite ?nth_error_appended, ?remove_appended.

Ltac ev :=
  lazy beta iota zeta delta
    [bind getWorld getState modifyState try_catch engine pulseBlackHole
     updateNoteDisplay setTimeout ret when throw set_melodySynth set_harmonySynth
     st melodySynth harmonySynth reverb canvas blackHole timers calls pulses faulty
     handDetected isLeftHandPresent isRightHandPresent leftHandLandmarks
     rightHandLandmarks lastRightHandY lastLeftHandY lastMelodyNote lastChord
     audioStarted selectedScale selectedRoot octave selectedSound
     leftHandIsPlaying rightHandIsPlaying currentMelodyNote currentChord
     leftHandVolume rightHandVolume
     set_handDetected set_isLeftHandPresent set_isRightHandPresent
     set_leftHandLandmarks set_rightHandLandmarks set_lastRightHandY
     set_lastLeftHandY set_lastMelodyNote set_lastChord set_audioStarted
     set_selectedScale set_leftHandIsPlaying set_rightHandIsPlaying
     set_currentMelodyNote set_currentChord set_leftHandVolume
     set_rightHandVolume
     runTask createMelodySynth createHarmonySynth
     negb andb orb fst snd].

Ltac evs rw := ev; repeat (progress (rw; ev)).

Ltac open_world' w :=
  destruct w as [s_ ms_ hs_ rv_ cv_ bh_ tm_ cl_ pl_ fa_];
  destruct s_ as [hd_ lp_ rp_ ll_ rl_ ly_ lly_ lmn_ lc_ au_ sc_ sr_ oc_ ss_
                  lpl_ rpl_ cmn_ cc_ lv_ rvol_];
  cbn [st melodySynth harmonySynth reverb canvas blackHole timers calls pulses
       faulty handDetected isLeftHandPresent isRightHandPresent leftHandLandmarks
       rightHandLandmarks lastRightHandY lastLeftHandY lastMelodyNote lastChord
       audioStarted selectedScale selectedRoot octave selectedSound
       leftHandIsPlaying rightHandIsPlaying currentMelodyNote currentChord
       leftHandVolume rightHandVolume] in * |-;
  subst; ev.

(** ** utils/math.js: ranges *)

Section MapRange.

Lemma Math_min_monotone (hi v v' : Q) : v <= v' -> Math_min hi v <= Math_min hi v'.
Proof.
  intro H.
  destruct (Math_min_spec hi v) as [[H1 E1] | [H1 E1]]; rewrite E1;
  destruct (Math_min_spec hi v') as [[H2 E2] | [H2 E2]]; rewrite E2; lra.
Qed.

Lemma Math_max_monotone (lo v v' : Q) : v <= v' -> Math_max lo v <= Math_max lo v'.
Proof.
  intro H.
  destruct (Math_max_spec lo v) as [[H1 E1] | [H1 E1]]; rewrite E1;
  destruct (Math_max_spec lo v') as [[H2 E2] | [H2 E2]]; rewrite E2; lra.
Qed.

Lemma clamp_monotone (lo hi v v' : Q) :
  v <= v' -> Math_max lo (Math_min hi v) <= Math_max lo (Math_min hi v').
Proof. intro H. apply Math_max_monotone, Math_min_monotone, H. Qed.

Lemma clamp_below (lo hi v : Q) : lo <= hi -> v <= lo -> Math_max lo (Math_min hi v) == lo.
Proof.
  intros Hle Hv.
  destruct (Math_min_spec hi v) as [[H1 E1] | [H1 E1]]; rewrite E1;
  match goal with
  | |- Math_max ?a ?b == _ =>
      destruct (Math_max_spec a b) as [[H3 E3] | [H3 E3]]; rewrite E3
  end; lra.
Qed.

Lemma clamp_above (lo hi v : Q) : lo <= hi -> hi <= v -> Math_max lo (Math_min hi v) == hi.
Proof.
  intros Hle Hv.
  destruct (Math_min_spec hi v) as [[H1 E1] | [H1 E1]]; rewrite E1;
  match goal with
  | |- Math_max ?a ?b == _ =>
      destruct (Math_max_spec a b) as [[H3 E3] | [H3 E3]]; rewrite E3
  end; lra.
Qed.

(** The affine form of [mapRange] on the clamped value. *)
Lemma mapRange_affine (v inMin inMax outMin outMax : Q) :
  inMin < inMax ->
  mapRange v inMin inMax outMin outMax
  == outMin + (outMax - outMin)
              * ((Math_max inMin (Math_min inMax v) - inMin) / (inMax - inMin)).
Proof.
  intro Hin. unfold mapRange. field. lra.
Qed.

Lemma fraction_bounds (c inMin inMax : Q) :
  inMin < inMax -> inMin <= c <= inMax ->
  0 <= (c - inMin) / (inMax - inMin) <= 1.
Proof.
  intros Hin [Hlo Hhi]. split.
  - apply Qle_shift_div_l; lra.
  - apply Qle_shift_div_r; lra.
Qed.

Lemma fraction_monotone (c c' inMin inMax : Q) :
  inMin < inMax -> c <= c' ->
  (c - inMin) / (inMax - inMin) <= (c' - inMin) / (inMax - inMin).
Proof.
  intros Hin Hc. unfold Qdiv. apply Qmult_le_compat_r; [lra |].
  apply Qlt_le_weak, Qinv_lt_0_compat. lra.
Qed.

(** X1.  For inMin < inMax, mapRange sends inMin to outMin and inMax to
    outMax, saturates at these two values for inputs outside [inMin,
    inMax], stays between them for every input, and is monotone when
    outMin <= outMax and antitone when outMax <= outMin. *)
Theorem mapRange_range_and_order (v v' inMin inMax outMin outMax : Q)
    (Hin : inMin < inMax) :
  mapRange inMin inMin inMax outMin outMax == outMin /\
  mapRange inMax inMin inMax outMin outMax == outMax /\
  (v <= inMin -> mapRange v inMin inMax outMin outMax == outMin) /\
  (inMax <= v -> mapRange v inMin inMax outMin outMax == outMax) /\
  (outMin <= outMax ->
   outMin <= mapRange v inMin inMax outMin outMax <= outMax /\
   (v <= v' -> mapRange v inMin inMax outMin outMax
               <= mapRange v' inMin inMax outMin outMax)) /\
  (outMax <= outMin ->
   outMax <= mapRange v inMin inMax outMin outMax <= outMin /\
   (v <= v' -> mapRange v' inMin inMax outMin outMax
               <= mapRange v inMin inMax outMin outMax)).
Proof.
  assert (Hle : inMin <= inMax) by lra.
  assert (Hsat_lo : forall u, u <= inMin ->
            mapRange u inMin inMax outMin outMax == outMin).
  { intros u Hu. rewrite mapRange_affine by assumption.
    rewrite (clamp_below inMin inMax u Hle Hu). field. lra. }
  assert (Hsat_hi : forall u, inMax <= u ->
            mapRange u inMin inMax outMin outMax == outMax).
  { intros u Hu. rewrite mapRange_affine by assumption.
    rewrite (clamp_above inMin inMax u Hle Hu). field. lra. }
  split; [apply Hsat_lo; lra |].
  split; [apply Hsat_hi; lra |].
  split; [apply Hsat_lo |]. split; [apply Hsat_hi |].
  pose proof (fraction_bounds _ inMin inMax Hin (clamp_bounds inMin inMax v Hle))
    as Ht.
  pose proof (fun H => fraction_monotone _ _ inMin inMax Hin
                         (clamp_monotone inMin inMax v v' H)) as Hmono.
  rewrite !mapRange_affine by assumption.
  set (t := (Math_max inMin (Math_min inMax v) - inMin) / (inMax - inMin)) in *.
  set (t' := (Math_max inMin (Math_min inMax v') - inMin) / (inMax - inMin)) in *.
  split; intro Hout; (split; [split; nra | intro Hv; specialize (Hmono Hv); nra]).
Qed.

End MapRange.

Section MathHelpers.

(** X2.  For min <= max, clamp(value, min, max) lies in [min, max], leaves
    a value of that interval unchanged and is idempotent; with inverted
    bounds (max < min) it returns min whatever the value. *)
Theorem clamp_range_and_fixpoint (value min max : Q) :
  (min <= max ->
   min <= clamp value min max <= max /\
   (min <= value <= max -> clamp value min max == value) /\
   clamp (clamp value min max) min max == clamp value min max) /\
  (max < min -> clamp value min max == min).
Proof.
  unfold clamp.
  assert (Hfix : forall v, min <= v <= max -> Math_max min (Math_min max v) == v).
  { intros v [Hlo Hhi].
    destruct (Math_min_spec max v) as [[H1 E1] | [H1 E1]]; rewrite E1.
    - destruct (Math_max_spec min max) as [[H2 E2] | [H2 E2]]; rewrite E2; lra.
    - destruct (Math_max_spec min v) as [[H2 E2] | [H2 E2]]; rewrite E2; lra. }
  split.
  - intro Hle. split; [apply clamp_bounds; exact Hle |].
    split; [exact (Hfix value) |].
    apply Hfix, clamp_bounds, Hle.
  - intro Hlt.
    destruct (Math_min_spec max value) as [[H1 E1] | [H1 E1]]; rewrite E1.
    + destruct (Math_max_spec min max) as [[H2 E2] | [H2 E2]]; rewrite E2; lra.
    + destruct (Math_max_spec min value) as [[H2 E2] | [H2 E2]]; rewrite E2; lra.
Qed.

Lemma clamp_range_and_fixpoint_witness :
  0 <= clamp 1.5 0 1 <= 1 /\ clamp 0.25 0 1 == 0.25 /\ clamp 0.5 1 0 == 1.
Proof.
  destruct (clamp_range_and_fixpoint 1.5 0 1) as [H _].
  destruct (H ltac:(lra)) as [Hrange _].
  destruct (clamp_range_and_fixpoint 0.25 0 1) as [H' _].
  destruct (H' ltac:(lra)) as [_ [Hfix _]].
  destruct (clamp_range_and_fixpoint 0.5 1 0) as [_ Hinv].
  split; [exact Hrange |]. split; [apply Hfix; lra | apply Hinv; lra].
Defined.

(** X3.  lerp(start, end, t) is start at t = 0 and end at t = 1, and for 0
    <= t <= 1 it lies between start and end, in either order of the two. *)
Theorem lerp_between (start end_ t : Q) :
  lerp start end_ 0 == start /\
  lerp start end_ 1 == end_ /\
  (0 <= t <= 1 ->
   (start <= end_ -> start <= lerp start end_ t <= end_) /\
   (end_ <= start -> end_ <= lerp start end_ t <= start)).
Proof.
  unfold lerp. split; [ring |]. split; [ring |].
  intros [Ht0 Ht1].
  assert (E : start * (1 - t) + end_ * t == start + (end_ - start) * t) by ring.
  assert (E' : start * (1 - t) + end_ * t == end_ - (end_ - start) * (1 - t)) by ring.
  split; intro Hle.
  - pose proof (Qmult_le_0_compat (end_ - start) t ltac:(lra) Ht0).
    pose proof (Qmult_le_0_compat (end_ - start) (1 - t) ltac:(lra) ltac:(lra)).
    split; [rewrite E | rewrite E']; lra.
  - pose proof (Qmult_le_0_compat (start - end_) t ltac:(lra) Ht0).
    pose proof (Qmult_le_0_compat (start - end_) (1 - t) ltac:(lra) ltac:(lra)).
    assert (F : (start - end_) * t == - ((end_ - start) * t)) by ring.
    assert (F' : (start - end_) * (1 - t) == - ((end_ - start) * (1 - t))) by ring.
    split; [rewrite E' | rewrite E]; lra.
Qed.

Lemma lerp_between_witness :
  1 <= lerp 1 1.2 0.05 <= 1.2.
Proof.
  destruct (lerp_between 1 1.2 0.05) as [_ [_ H]].
  destruct (H ltac:(lra)) as [Hup _].
  apply Hup. lra.
Defined.

End MathHelpers.

(** ** The levels derived from finger distances *)

Section GestureLevels.

Lemma clamp01_monotone (v v' : Q) :
  v <= v' -> Math_max 0 (Math_min v 1) <= Math_max 0 (Math_min v' 1).
Proof.
  intro H. apply Math_max_monotone.
  destruct (Math_min_spec v 1) as [[H1 E1] | [H1 E1]]; rewrite E1;
  destruct (Math_min_spec v' 1) as [[H2 E2] | [H2 E2]]; rewrite E2; lra.
Qed.

Lemma mapPinchToReverb_Fin (d : Q) :
  mapPinchToReverb (Fin d)
  = Math_max 0 (Math_min ((d - MIN_PINCH_DIST) / (MAX_PINCH_DIST - MIN_PINCH_DIST)) 1).
Proof. reflexivity. Qed.

(** X4.  mapPinchToReverb and mapFingerToVolume are the same function of a
    finite distance: it is monotone in the distance, lies in [0, 1], is 0
    up to MIN_PINCH_DIST, 1 from MAX_PINCH_DIST on, and (d - 0.01) / 0.09
    in between. *)
Theorem gesture_level_monotone (d d' : Q) (Hle : d <= d') :
  mapPinchToReverb (Fin MIN_PINCH_DIST) == 0 /\
  mapPinchToReverb (Fin MAX_PINCH_DIST) == 1 /\
  0 <= mapPinchToReverb (Fin d) /\
  mapPinchToReverb (Fin d) <= mapPinchToReverb (Fin d') /\
  mapPinchToReverb (Fin d') <= mapPinchToReverb Infinity /\
  mapPinchToReverb Infinity == 1 /\
  (MIN_PINCH_DIST <= d <= MAX_PINCH_DIST ->
   mapPinchToReverb (Fin d) == (d - 0.01) / 0.09) /\
  mapFingerToVolume (Fin d) = mapPinchToReverb (Fin d).
Proof.
  split; [reflexivity |]. split; [reflexivity |].
  split; [apply mapPinchToReverb_bounds |].
  split.
  - rewrite !mapPinchToReverb_Fin. apply clamp01_monotone.
    unfold Qdiv. apply Qmult_le_compat_r; [lra | discriminate].
  - split; [apply (mapPinchToReverb_bounds (Fin d')) |].
    split; [reflexivity |]. split; [| reflexivity].
    intros [Hlo Hhi]. rewrite mapPinchToReverb_Fin.
    unfold MIN_PINCH_DIST, MAX_PINCH_DIST in *.
    assert (E : (d - 0.01) / (0.1 - 0.01) == (d - 0.01) / 0.09) by (field).
    assert (Hr : 0 <= (d - 0.01) / (0.1 - 0.01) <= 1).
    { rewrite E. split.
      - apply Qle_shift_div_l; lra.
      - apply Qle_shift_div_r; lra. }
    rewrite (clamp01_idem _ Hr). exact E.
Qed.

Lemma gesture_level_monotone_witness :
  mapPinchToReverb (Fin 0.02) <= mapPinchToReverb (Fin 0.05) /\
  mapPinchToReverb (Fin 0.05) == (0.05 - 0.01) / 0.09.
Proof.
  destruct (gesture_level_monotone 0.02 0.05 ltac:(lra))
    as [_ [_ [_ [H [_ _]]]]].
  split; [exact H |].
  destruct (gesture_level_monotone 0.05 0.05 ltac:(lra))
    as [_ [_ [_ [_ [_ [_ [H' _]]]]]]].
  apply H'. unfold MIN_PINCH_DIST, MAX_PINCH_DIST. split; lra.
Defined.

End GestureLevels.

(** ** Notes and chords of a scale *)

Section ScaleMembership.

Lemma prop_In {A : Type} (obj : list (string * A)) (key : string) (v : A) :
  prop obj key = Some v -> exists k, In (k, v) obj /\ k = key.
Proof.
  induction obj as [| [k a] obj IH]; cbn [prop]; [discriminate |].
  destruct (String.eqb k key) eqn:E.
  - intro H. inversion H. subst. exists k. split; [now left |].
    now apply String.eqb_eq.
  - intro H. destruct (IH H) as [k' [Hin Hk]]. exists k'. split; [now right | exact Hk].
Qed.

(** The arrays of [scales]: non-empty, with semitone offsets from 0 to 12,
    starting at 0 and ending at 12. *)

Lemma scales_well_formed (scale : string) (arr : list Z) :
  prop scales scale = Some arr -> well_formed_scale arr.
Proof.
  intro H. destruct (prop_In _ _ _ H) as [k [Hin _]].
  unfold scales in Hin. cbn [In] in Hin.
  repeat (destruct Hin as [Hin | Hin];
          [inversion Hin; subst; unfold well_formed_scale;
           repeat split; try reflexivity; repeat constructor; lia |]).
  contradiction.
Qed.

Lemma index_in_range {A : Type} (l : list A) (i : Z) :
  (0 <= i < Z.of_nat (List.length l))%Z ->
  exists x, index l i = Some x /\ In x l.
Proof.
  intros [Hlo Hhi]. unfold index.
  destruct (i <? 0)%Z eqn:E; [apply Z.ltb_lt in E; lia |].
  destruct (nth_error l (Z.to_nat i)) as [x |] eqn:Hn.
  - exists x. split; [reflexivity |]. eapply nth_error_In; eassumption.
  - apply nth_error_None in Hn. lia.
Qed.

Lemma indexOf_from_spec (x : string) (arr : list string) (i : Z) :
  In x arr ->
  (i <= indexOf_from x arr i < i + Z.of_nat (List.length arr))%Z /\
  nth_error arr (Z.to_nat (indexOf_from x arr i - i)) = Some x.
Proof.
  revert i. induction arr as [| a arr IH]; intros i Hin; [contradiction |].
  cbn [indexOf_from]. destruct (String.eqb a x) eqn:E.
  - apply String.eqb_eq in E. subst. rewrite Z.sub_diag. cbn [List.length].
    split; [lia | reflexivity].
  - destruct Hin as [-> | Hin]; [rewrite String.eqb_refl in E; discriminate |].
    destruct (IH (i + 1)%Z Hin) as [Hr Hn]. cbn [List.length]. split; [lia |].
    replace (indexOf_from x arr (i + 1) - i)%Z
      with (Z.succ (indexOf_from x arr (i + 1) - (i + 1)))%Z by lia.
    rewrite Z2Nat.inj_succ by lia. exact Hn.
Qed.

Lemma indexOf_notes (x : string) :
  In x notes ->
  (0 <= indexOf notes x < 12)%Z /\ index notes (indexOf notes x) = Some x.
Proof.
  intro Hin. destruct (indexOf_from_spec x notes 0 Hin) as [Hr Hn].
  fold (indexOf notes x) in Hr, Hn. change (Z.of_nat (List.length notes)) with 12%Z in Hr.
  split; [lia |]. unfold index.
  destruct (indexOf notes x <? 0)%Z eqn:E; [apply Z.ltb_lt in E; lia |].
  now rewrite Z.sub_0_r in Hn.
Qed.

(** The name of a non-negative MIDI pitch is the name of its pitch class
    followed by its octave. *)
Lemma noteOfMidi_nonneg (midiNote : Z) :
  (0 <= midiNote)%Z ->
  exists name,
    index notes (midiNote mod 12) = Some name /\
    noteOfMidi midiNote
    = NoteStr (String.append name
                 (string_of_Z (Math_floor (inject_Z midiNote / 12) - 1))).
Proof.
  intro H. unfold noteOfMidi, noteName, rem.
  rewrite Z.rem_mod_nonneg by lia.
  assert (Hr : (0 <= midiNote mod 12 < Z.of_nat (List.length notes))%Z).
  { change (Z.of_nat (List.length notes)) with 12%Z. apply Z.mod_pos_bound. lia. }
  destruct (index_in_range notes _ Hr) as [name [Hname _]].
  exists name. rewrite Hname. split; reflexivity.
Qed.

Lemma floor_quotient_nonneg (a b : Z) :
  (0 <= a)%Z -> (0 < b)%Z -> (0 <= Math_floor (inject_Z a / inject_Z b))%Z.
Proof.
  intros Ha Hb. unfold Math_floor. rewrite <- (Qfloor_Z 0).
  apply Qfloor_resp_le. apply Qle_shift_div_l.
  - rewrite (Zlt_Qlt 0 b) in Hb. exact Hb.
  - rewrite Qmult_0_l. rewrite (Zle_Qle 0 a) in Ha. exact Ha.
Qed.

(** X5.  With a scale that is a key of scales, a root among the twelve
    note names and a non-negative octave setting, getNoteFromPosition
    returns, at every vertical position, a note name followed by an octave
    number, whose pitch class is the root raised by one of the semitone
    offsets of the scale array, modulo 12. *)
Theorem getNote_pitch_class_in_scale (w : World) (y : Q) (scale : string)
    (scaleArray : list Z)
    (Hkey : prop scales scale = Some scaleArray)
    (Hroot : In (selectedRoot (st w)) notes)
    (Hoctave : (0 <= octave (st w))%Z) :
  exists semitones name noteOctave,
    In semitones scaleArray /\
    index notes ((indexOf notes (selectedRoot (st w)) + semitones) mod 12) = Some name /\
    fst (getNoteFromPosition y scale w)
    = Ok (NoteStr (String.append name (string_of_Z noteOctave))).
Proof.
  destruct (scales_well_formed _ _ Hkey) as [Hlen [Hall _]].
  destruct (indexOf_notes _ Hroot) as [Hr _].
  unfold getNoteFromPosition, bind, getState, modifyState.
  cbv beta iota zeta. rewrite Hkey.
  set (position := Math_floor (mapRange y 0.0 1.0 14 0)).
  assert (Hpos : (0 <= position <= 14)%Z) by (apply (position_range y 14); lia).
  set (len := Z.of_nat (List.length scaleArray)) in *.
  assert (Hidx : (0 <= rem position len < len)%Z)
    by (unfold rem; apply Z.rem_bound_pos; lia).
  destruct (index_in_range scaleArray _ Hidx) as [semitones [Hsem Hin]].
  rewrite Hsem.
  pose proof (floor_quotient_nonneg position len ltac:(lia) Hlen) as Hoff.
  set (octaveOffset := Math_floor (inject_Z position / inject_Z len)) in *.
  assert (Hs : (0 <= semitones <= 12)%Z)
    by (rewrite Forall_forall in Hall; apply Hall; exact Hin).
  set (rootIndex := indexOf notes (selectedRoot (st w))) in *.
  set (midiNote := (60 + rootIndex + semitones + (octave (st w) - 4 + octaveOffset) * 12)%Z).
  assert (Hmidi : (0 <= midiNote)%Z) by (unfold midiNote; lia).
  destruct (noteOfMidi_nonneg midiNote Hmidi) as [name [Hname Hnote]].
  exists semitones, name. eexists. split; [exact Hin |]. split.
  - rewrite <- Hname. unfold midiNote.
    replace (60 + rootIndex + semitones + (octave (st w) - 4 + octaveOffset) * 12)%Z
      with (rootIndex + semitones + (5 + (octave (st w) - 4 + octaveOffset)) * 12)%Z
      by lia.
    now rewrite Z_mod_plus_full.
  - cbn [fst ret]. unfold ret. cbn [fst]. rewrite Hnote. reflexivity.
Qed.

End ScaleMembership.

Section OctaveSeam.

Lemma floor_quotient (a b : Z) :
  (0 < b)%Z -> Math_floor (inject_Z a / inject_Z b) = (a / b)%Z.
Proof.
  intro Hb. destruct b as [| p | p]; try lia.
  unfold Math_floor, Qfloor, Qdiv, Qmult, Qinv, inject_Z. cbn.
  now rewrite Z.mul_1_r.
Qed.

(** X6.  Every scale array ends on 12 and starts on 0, so the last step of
    one round and the first step of the next are the same note: two
    positions whose step indices are length - 1 and length give the same
    result of getNoteFromPosition. *)
Theorem octave_seam_repeats_note (w : World) (y1 y2 : Q) (scale : string)
    (scaleArray : list Z)
    (Hkey : prop scales scale = Some scaleArray)
    (H1 : Math_floor (mapRange y1 0.0 1.0 14 0)
          = (Z.of_nat (List.length scaleArray) - 1)%Z)
    (H2 : Math_floor (mapRange y2 0.0 1.0 14 0)
          = Z.of_nat (List.length scaleArray)) :
  exists note,
    fst (getNoteFromPosition y1 scale w) = Ok note /\
    fst (getNoteFromPosition y2 scale w) = Ok note.
Proof.
  destruct (scales_well_formed _ _ Hkey) as [Hlen [_ [Hfirst Hlast]]].
  unfold getNoteFromPosition, bind, getState, modifyState.
  cbv beta iota zeta. rewrite Hkey, H1, H2.
  set (len := Z.of_nat (List.length scaleArray)) in *.
  rewrite !floor_quotient by exact Hlen.
  unfold rem. rewrite (Z.rem_small (len - 1) len) by lia.
  rewrite Z.rem_same by lia.
  rewrite Hfirst, Hlast.
  rewrite Z.div_small by lia. rewrite Z.div_same by lia.
  eexists. split; [reflexivity |].
  cbn [fst ret]. unfold ret. cbn [fst]. do 2 f_equal. lia.
Qed.

Lemma octave_seam_repeats_note_witness :
  exists note,
    fst (getNoteFromPosition 0.5 "major" worldReady) = Ok note /\
    fst (getNoteFromPosition 0.4 "major" worldReady) = Ok note.
Proof.
  apply (octave_seam_repeats_note worldReady 0.5 0.4 "major"
           [0; 2; 4; 5; 7; 9; 11; 12]%Z); reflexivity.
Defined.

End OctaveSeam.

Section ChordShape.

(** The interval sets of [chordTypes]: three or four intervals, the first
    of which is 0, none negative. *)
Lemma chordTypes_well_formed (chordType : string) (intervals : list Z) :
  prop chordTypes chordType = Some intervals ->
  (List.length intervals = 3%nat \/ List.length intervals = 4%nat) /\
  (exists rest, intervals = 0%Z :: rest) /\
  Forall (fun i => (0 <= i)%Z) intervals.
Proof.
  intro H. destruct (prop_In _ _ _ H) as [k [Hin _]].
  unfold chordTypes in Hin. cbn [In] in Hin.
  repeat (destruct Hin as [Hin | Hin];
          [inversion Hin; subst; split; [cbn; tauto |];
           split; [eexists; reflexivity | repeat constructor; lia] |]).
  contradiction.
Qed.

Lemma chordSuffix_nonempty (chordType : string) :
  chordType <> EmptyString -> chordSuffix chordType <> EmptyString.
Proof.
  intro Hne. unfold chordSuffix.
  destruct (prop chordNameMap chordType) as [suffix |] eqn:E; [| exact Hne].
  destruct suffix; [exact Hne | discriminate].
Qed.

Lemma getChordFromPosition_shape (w : World) (y : Q) (scaleArray : list Z)
    (Hkey : prop scales (selectedScale (st w)) = Some scaleArray)
    (Hroot : In (selectedRoot (st w)) notes)
    (Hoctave : (0 <= octave (st w))%Z) :
  exists chord intervals rootName noteOctave,
    fst (getChordFromPosition y w) = Ok chord /\
    prop chordTypes (type chord) = Some intervals /\
    List.length (chord_notes chord) = List.length intervals /\
    Forall isNoteName (chord_notes chord) /\
    root chord = Some rootName /\
    In rootName notes /\
    nth_error (chord_notes chord) 0
    = Some (NoteStr (String.append rootName (string_of_Z noteOctave))) /\
    name chord = String.append rootName (chordSuffix (type chord)).
Proof.
  destruct (scales_well_formed _ _ Hkey) as [Hlen [Hall _]].
  destruct (indexOf_notes _ Hroot) as [Hr _].
  unfold getChordFromPosition, bind, getState, modifyState.
  cbv beta iota zeta. rewrite Hkey.
  set (position := Math_floor (mapRange y 0.0 1.0 7 0)).
  assert (Hpos : (0 <= position <= 7)%Z) by (apply (position_range y 7); lia).
  set (len := Z.of_nat (List.length scaleArray)) in *.
  assert (Hidx : (0 <= rem position len < len)%Z)
    by (unfold rem; apply Z.rem_bound_pos; lia).
  destruct (index_in_range scaleArray _ Hidx) as [degreeOffset [Hdeg Hin]].
  rewrite Hdeg.
  assert (Hd : (0 <= degreeOffset <= 12)%Z)
    by (rewrite Forall_forall in Hall; apply Hall; exact Hin).
  set (rootIndex := indexOf notes (selectedRoot (st w))) in *.
  set (chordRootIndex := rem (rootIndex + degreeOffset) 12).
  assert (Hcri : (0 <= chordRootIndex < 12)%Z)
    by (unfold chordRootIndex, rem; apply Z.rem_bound_pos; lia).
  destruct (index_in_range notes chordRootIndex Hcri) as [rootName [Hname HnameIn]].
  rewrite Hname.
  destruct (chordTypeOf_defined (selectedScale (st w)) (rem position len)
              ltac:(lia)) as [chordType [intervals [Htype Hivs]]].
  rewrite Htype, Hivs.
  destruct (chordTypes_well_formed _ _ Hivs) as [_ [[rest Hrest] Hnonneg]].
  pose proof (floor_quotient_nonneg position 7 ltac:(lia) ltac:(lia)) as Hoff.
  change (inject_Z 7) with 7 in Hoff.
  set (octaveOffset := Math_floor (inject_Z position / 7)) in *.
  set (midiBase := (48 + chordRootIndex + (octave (st w) - 4 + octaveOffset) * 12)%Z).
  assert (Hbase : (0 <= midiBase)%Z) by (unfold midiBase; lia).
  destruct (noteOfMidi_nonneg (midiBase + 0) ltac:(lia)) as [name0 [Hname0 Hnote0]].
  assert (Hsame : name0 = rootName).
  { assert (E : ((midiBase + 0) mod 12 = chordRootIndex)%Z).
    { unfold midiBase.
      replace (48 + chordRootIndex + (octave (st w) - 4 + octaveOffset) * 12 + 0)%Z
        with (chordRootIndex + (4 + (octave (st w) - 4 + octaveOffset)) * 12)%Z by lia.
      rewrite Z_mod_plus_full. apply Z.mod_small. lia. }
    rewrite E, Hname in Hname0. now inversion Hname0. }
  subst name0.
  eexists. exists intervals, rootName. eexists.
  cbn [fst ret]. unfold ret. cbn [fst type chord_notes root name].
  split; [reflexivity |]. split; [exact Hivs |].
  split; [apply length_map |].
  split.
  - apply Forall_forall. intros n Hn. apply in_map_iff in Hn.
    destruct Hn as [interval [<- Hi]].
    rewrite Forall_forall in Hnonneg. specialize (Hnonneg _ Hi).
    destruct (noteOfMidi_nonneg (midiBase + interval) ltac:(lia)) as [nm [_ Hnm]].
    rewrite Hnm. eexists. reflexivity.
  - split; [reflexivity |]. split; [exact HnameIn |].
    split; [| reflexivity].
    rewrite Hrest. cbn [map nth_error]. rewrite Hnote0. reflexivity.
Qed.

End ChordShape.

Section ChordPlayable.

Lemma append_nonempty_differs (s suffix : string) :
  suffix <> EmptyString -> String.append s suffix <> s.
Proof.
  intro Hne. induction s as [| c s IH]; cbn [String.append].
  - exact Hne.
  - intro E. injection E as E. now apply IH.
Qed.

(** X7.  With a known scale, a root among the twelve note names and a
    non-negative octave setting, getChordFromPosition returns at every
    position a chord of three or four notes, all of them strings, whose
    first note is the chord root followed by an octave number, whose root
    is one of the twelve note names, and whose display name is the root
    followed by a non-empty suffix. *)
Theorem chord_is_playable (w : World) (y : Q) (scaleArray : list Z)
    (Hkey : prop scales (selectedScale (st w)) = Some scaleArray)
    (Hroot : In (selectedRoot (st w)) notes)
    (Hoctave : (0 <= octave (st w))%Z) :
  exists chord rootName noteOctave,
    fst (getChordFromPosition y w) = Ok chord /\
    (3 <= List.length (chord_notes chord) <= 4)%nat /\
    Forall isNoteName (chord_notes chord) /\
    root chord = Some rootName /\
    In rootName notes /\
    nth_error (chord_notes chord) 0
    = Some (NoteStr (String.append rootName (string_of_Z noteOctave))) /\
    name chord = String.append rootName (chordSuffix (type chord)) /\
    name chord <> rootName.
Proof.
  destruct (getChordFromPosition_shape w y scaleArray Hkey Hroot Hoctave)
    as [chord [intervals [rootName [noteOctave
         [Hc [Htype [Hlen [Hnames [Hr [Hin [Hfirst Hname]]]]]]]]]]].
  exists chord, rootName, noteOctave.
  destruct (chordTypes_well_formed _ _ Htype) as [Hsize _].
  repeat (split; [first [assumption | lia] |]).
  rewrite Hname. apply append_nonempty_differs, chordSuffix_nonempty.
  intro E. rewrite E in Htype. discriminate Htype.
Qed.

Lemma chord_is_playable_witness :
  exists chord rootName noteOctave,
    fst (getChordFromPosition 0.5 worldReady) = Ok chord /\
    (3 <= List.length (chord_notes chord) <= 4)%nat /\
    Forall isNoteName (chord_notes chord) /\
    root chord = Some rootName /\
    In rootName notes /\
    nth_error (chord_notes chord) 0
    = Some (NoteStr (String.append rootName (string_of_Z noteOctave))) /\
    name chord = String.append rootName (chordSuffix (type chord)) /\
    name chord <> rootName.
Proof.
  apply (chord_is_playable worldReady 0.5 [0; 2; 4; 5; 7; 9; 11; 12]%Z);
    [reflexivity | cbn; tauto | discriminate].
Defined.

End ChordPlayable.

(** ** The delayed callbacks of synth.js *)

Section Timers.

(** X8.  A frame without hands releases exactly the voices that were
    playing (the melody first, then the harmony), leaves both play flags
    false, and a second such frame makes no engine call at all. *)
Theorem no_hands_frame_silences (Math_sqrt : Q -> Q) (w : World) (results : Results)
    (Hnone : handsOf results = [])
    (Hcanvas : canvas w = true)
    (Hmelody : melodySynth w = true)
    (Hharmony : harmonySynth w = true)
    (Hok : forall c, faulty w c = false) :
  let w1 := snd (onHandResults Math_sqrt results w) in
  rightHandIsPlaying (st w1) = false /\
  leftHandIsPlaying (st w1) = false /\
  calls w1 = calls w
             ++ (if rightHandIsPlaying (st w) then [MelodyTriggerRelease None] else [])
             ++ (if leftHandIsPlaying (st w) then [HarmonyReleaseAll None] else []) /\
  calls (snd (onHandResults Math_sqrt results w1)) = calls w1.
Proof.
  cbv zeta. unfold onHandResults. rewrite Hnone.
  cbn [List.length Nat.eqb]. unfold stopMelody, stopChord.
  open_world' w.
  destruct rpl_, lpl_, lp_, rp_; ev; rewrite ?Hok; ev; rewrite ?Hok; ev;
    rewrite ?app_nil_r, <- ?app_assoc; repeat split; reflexivity.
Qed.

(** X9.  With a known sound preset, updateSynths releases both voices at
    once and schedules one callback after 100 ms; when it runs it disposes
    both synths, creates both anew with the selected sound, restores the
    two gains (the harmony gain times 0.6), clears both play flags, the
    current note and the current chord, and leaves no timer behind. *)
Theorem sound_switch_resets_voices (w : World)
    (Hpreset : prop soundPresets (selectedSound (st w)) = Some tt)
    (Hmelody : melodySynth w = true)
    (Hharmony : harmonySynth w = true)
    (Hok : forall c, faulty w c = false) :
  let w1 := snd (updateSynths w) in
  let fired := fire (List.length (timers w)) w1 in
  let w2 := snd fired in
  calls w1 = calls w ++ [MelodyTriggerRelease None; HarmonyReleaseAll None] /\
  timers w1 = timers w ++ [(100%Z, SwitchSynths)] /\
  fst fired = Ok tt /\
  calls w2 = calls w1 ++ [MelodyDispose; HarmonyDispose;
                          MelodyCreate (selectedSound (st w));
                          HarmonyCreate (selectedSound (st w));
                          MelodyVolume (rightHandVolume (st w));
                          HarmonyVolume (leftHandVolume (st w) * 0.6)] /\
  rightHandIsPlaying (st w2) = false /\
  leftHandIsPlaying (st w2) = false /\
  currentMelodyNote (st w2) = None /\
  currentChord (st w2) = None /\
  timers w2 = timers w.
Proof.
  cbv zeta. unfold updateSynths.
  open_world' w. evs ltac:(rewrite ?Hok).
  split; [now rewrite <- app_assoc |]. split; [reflexivity |].
  fire_appended.
  evs ltac:(rewrite ?Hok, ?Hpreset).
  rewrite <- !app_assoc. repeat split; reflexivity.
Qed.

(** X10.  When state.selectedSound is not a key of soundPresets, the
    callback scheduled by updateSynths disposes both synths and then
    throws a TypeError while creating the melody synth: no synth is
    created, no gain is restored and the state is not reset. *)
Theorem unknown_sound_preset_loses_synths (w : World)
    (Hpreset : prop soundPresets (selectedSound (st w)) = None)
    (Hmelody : melodySynth w = true)
    (Hharmony : harmonySynth w = true)
    (Hok : forall c, faulty w c = false) :
  let w1 := snd (updateSynths w) in
  let fired := fire (List.length (timers w)) w1 in
  fst fired = Throw (TypeError "preset is undefined") /\
  calls (snd fired) = calls w ++ [MelodyTriggerRelease None; HarmonyReleaseAll None;
                                  MelodyDispose; HarmonyDispose] /\
  st (snd fired) = st w.
Proof.
  cbv zeta. unfold updateSynths.
  open_world' w. evs ltac:(rewrite ?Hok).
  fire_appended.
  evs ltac:(rewrite ?Hok, ?Hpreset).
  rewrite <- !app_assoc. repeat split; reflexivity.
Qed.

(** X11.  stopChord, on a playing harmony voice, releases all notes,
    clears the play flag and the current chord and schedules a check after
    100 ms; since the flag is cleared synchronously, the check finds it
    false and rebuilds nothing when it runs next, and a second stopChord
    is a no-op. *)
Theorem stopChord_rebuild_timer_is_idle (w : World)
    (Hplaying : leftHandIsPlaying (st w) = true)
    (Hharmony : harmonySynth w = true)
    (Hok : forall c, faulty w c = false) :
  let w1 := snd (stopChord w) in
  let fired := fire (List.length (timers w)) w1 in
  calls w1 = calls w ++ [HarmonyReleaseAll None] /\
  timers w1 = timers w ++ [(100%Z, EnsureChordStopped)] /\
  leftHandIsPlaying (st w1) = false /\
  currentChord (st w1) = None /\
  fst fired = Ok tt /\
  calls (snd fired) = calls w1 /\
  st (snd fired) = st w1 /\
  timers (snd fired) = timers w /\
  stopChord w1 = (Ok tt, w1).
Proof.
  cbv zeta. unfold stopChord.
  open_world' w. evs ltac:(rewrite ?Hok).
  fire_appended. evs ltac:(rewrite ?Hok).
  repeat split; reflexivity.
Qed.

(** X12.  A chord with other notes played on a sounding harmony voice
    releases all notes 5 ms in the past and schedules a rebuild after 150
    ms; the rebuild disposes and recreates the harmony synth, restores its
    gain and schedules the attack 50 ms later; the attack starts the new
    chord 0.05 s ahead at velocity 0.6, makes it the current and the last
    chord, and pulses the visualizer; playChord itself leaves lastChord as
    it was. *)
Theorem chord_change_sequence (w : World) (chord : Chord)
    (Hstarted : audioStarted (st w) = true)
    (Hharmony : harmonySynth w = true)
    (Hplaying : leftHandIsPlaying (st w) = true)
    (Hchanged : chordChanged chord (lastChord (st w)) = true)
    (Hpreset : prop soundPresets (selectedSound (st w)) = Some tt)
    (Hok : forall c, faulty w c = false) :
  let w1 := snd (playChord chord w) in
  let w2 := snd (fire (List.length (timers w)) w1) in
  let w3 := snd (fire (List.length (timers w)) w2) in
  calls w1 = calls w ++ [HarmonyReleaseAll (Some (- 0.005))] /\
  timers w1 = timers w ++ [(150%Z, RebuildHarmony chord)] /\
  lastChord (st w1) = lastChord (st w) /\
  calls w2 = calls w1 ++ [HarmonyDispose; HarmonyCreate (selectedSound (st w));
                          HarmonyVolume (leftHandVolume (st w) * 0.6)] /\
  timers w2 = timers w ++ [(50%Z, AttackNewChord chord)] /\
  calls w3 = calls w2 ++ [HarmonyTriggerAttack (chord_notes chord) 0.05 0.6] /\
  pulses w3 = pulses w ++ [chordChangePulse chord] /\
  lastChord (st w3) = Some chord /\
  currentChord (st w3) = Some chord /\
  leftHandIsPlaying (st w3) = true /\
  timers w3 = timers w.
Proof.
  cbv zeta. unfold playChord.
  open_world' w. rewrite Hchanged. evs ltac:(rewrite ?Hok).
  fire_appended.
  evs ltac:(rewrite ?Hok, ?Hpreset).
  fire_appended. evs ltac:(rewrite ?Hok).
  rewrite <- !app_assoc. repeat split; reflexivity.
Qed.

(** X13.  The delayed chord change is not cancelled by stopChord: if
    stopChord runs right after playChord started a chord change, the
    callbacks that fire afterwards (the idle check at 100 ms, the rebuild
    at 150 ms, the attack 50 ms later) attack the new chord and set
    leftHandIsPlaying back to true although the voice was stopped. *)
Theorem superseded_chord_change_sounds_after_stop (w : World) (chord : Chord)
    (Hstarted : audioStarted (st w) = true)
    (Hharmony : harmonySynth w = true)
    (Hplaying : leftHandIsPlaying (st w) = true)
    (Hchanged : chordChanged chord (lastChord (st w)) = true)
    (Hpreset : prop soundPresets (selectedSound (st w)) = Some tt)
    (Hidle : timers w = [])
    (Hok : forall c, faulty w c = false) :
  let stopped := snd ((playChord chord ;; stopChord) w) in
  let w' := snd ((fire 1 ;; fire 0 ;; fire 0) stopped) in
  timers stopped = [(150%Z, RebuildHarmony chord); (100%Z, EnsureChordStopped)] /\
  leftHandIsPlaying (st stopped) = false /\
  timers w' = [] /\
  leftHandIsPlaying (st w') = true /\
  currentChord (st w') = Some chord /\
  calls w' = calls w ++ [HarmonyReleaseAll (Some (- 0.005)); HarmonyReleaseAll None;
                         HarmonyDispose; HarmonyCreate (selectedSound (st w));
                         HarmonyVolume (leftHandVolume (st w) * 0.6);
                         HarmonyTriggerAttack (chord_notes chord) 0.05 0.6].
Proof.
  cbv zeta. unfold playChord, stopChord.
  open_world' w. rewrite Hchanged. evs ltac:(rewrite ?Hok).
  unfold fire.
  evs ltac:(cbn [nth_error firstn skipn app]; rewrite ?Hok, ?Hpreset).
  rewrite <- !app_assoc. repeat split; reflexivity.
Qed.

End Timers.

Section GainsAfterSwitch.

(** X14.  setVolume('left', a) stores a in state.rightHandVolume and sets
    the harmony gain to 0.6 a, setVolume('right', b) stores b in
    state.leftHandVolume and sets the melody gain to b, but the callback
    of updateSynths restores the melody gain from rightHandVolume and the
    harmony gain from leftHandVolume: after a sound switch the melody gain
    is a and the harmony gain is 0.6 b. *)
Theorem sound_switch_swaps_gains (w : World) (harmonyLevel melodyLevel : Q)
    (Hh : 0 <= harmonyLevel <= 1)
    (Hm : 0 <= melodyLevel <= 1)
    (Hstarted : audioStarted (st w) = true)
    (Hpreset : prop soundPresets (selectedSound (st w)) = Some tt)
    (Hmelody : melodySynth w = true)
    (Hharmony : harmonySynth w = true)
    (Hok : forall c, faulty w c = false) :
  let w1 := snd ((setVolume "left" harmonyLevel ;; setVolume "right" melodyLevel) w) in
  let w2 := snd ((updateSynths ;; fire (List.length (timers w))) w1) in
  exists before melodyGain harmonyGain,
    calls w1 = calls w ++ before /\
    Forall (fun c => c = HarmonyVolume (harmonyLevel * 0.6)
                     \/ c = MelodyVolume melodyLevel) before /\
    melodyGain == harmonyLevel /\
    harmonyGain == melodyLevel /\
    calls w2 = calls w1 ++ [MelodyTriggerRelease None; HarmonyReleaseAll None;
                            MelodyDispose; HarmonyDispose;
                            MelodyCreate (selectedSound (st w));
                            HarmonyCreate (selectedSound (st w));
                            MelodyVolume melodyGain;
                            HarmonyVolume (harmonyGain * 0.6)].
Proof.
  cbv zeta. unfold setVolume, updateSynths.
  rewrite (clamp01_idem _ Hh), (clamp01_idem _ Hm).
  open_world' w. eqb_literals.
  unfold num_sne.
  destruct (Qeq_bool rvol_ harmonyLevel) eqn:E1; evs ltac:(rewrite ?Hok);
    destruct (Qeq_bool lv_ melodyLevel) eqn:E2; evs ltac:(rewrite ?Hok);
    fire_appended; evs ltac:(rewrite ?Hok, ?Hpreset);
    try apply Qeq_bool_eq in E1; try apply Qeq_bool_eq in E2.
  - exists [], rvol_, lv_. rewrite <- ?app_assoc, ?app_nil_r.
    split; [reflexivity |]. split; [constructor |].
    split; [exact E1 |]. split; [exact E2 | reflexivity].
  - exists [MelodyVolume melodyLevel], rvol_, melodyLevel. rewrite <- ?app_assoc.
    split; [reflexivity |]. split; [constructor; [now right | constructor] |].
    split; [exact E1 |]. split; reflexivity.
  - exists [HarmonyVolume (harmonyLevel * 0.6)], harmonyLevel, lv_.
    rewrite <- ?app_assoc.
    split; [reflexivity |]. split; [constructor; [now left | constructor] |].
    split; [reflexivity |]. split; [exact E2 | reflexivity].
  - exists [HarmonyVolume (harmonyLevel * 0.6); MelodyVolume melodyLevel],
      harmonyLevel, melodyLevel. rewrite <- ?app_assoc.
    split; [reflexivity |].
    split; [constructor; [now left |]; constructor; [now right | constructor] |].
    split; [reflexivity |]. split; reflexivity.
Qed.

Lemma sound_switch_swaps_gains_witness :
  let w := worldReady in
  let w1 := snd ((setVolume "left" 0.9 ;; setVolume "right" 0.2) w) in
  let w2 := snd ((updateSynths ;; fire (List.length (timers w))) w1) in
  exists before melodyGain harmonyGain,
    calls w1 = calls w ++ before /\
    Forall (fun c => c = HarmonyVolume (0.9 * 0.6) \/ c = MelodyVolume 0.2) before /\
    melodyGain == 0.9 /\
    harmonyGain == 0.2 /\
    calls w2 = calls w1 ++ [MelodyTriggerRelease None; HarmonyReleaseAll None;
                            MelodyDispose; HarmonyDispose;
                            MelodyCreate (selectedSound (st w));
                            HarmonyCreate (selectedSound (st w));
                            MelodyVolume melodyGain;
                            HarmonyVolume (harmonyGain * 0.6)].
Proof.
  apply (sound_switch_swaps_gains worldReady 0.9 0.2);
    first [reflexivity | intro c; reflexivity | split; lra].
Defined.

End GainsAfterSwitch.

(** ** Melody lines *)

Section MelodyLine.

Lemma note_sne_false (n prev : NoteVal) :
  note_sne n (Some prev) = false -> n = prev.
Proof.
  unfold note_sne. destruct n as [a |], prev as [b |]; try discriminate.
  intro H. apply negb_false_iff, String.eqb_eq in H. now subst.
Qed.

Lemma last_cons {A : Type} (rest : list A) :
  forall n prev : A, last (n :: rest) prev = last rest n.
Proof.
  induction rest as [| m rest IH]; intros n prev; [reflexivity |].
  change (last (n :: m :: rest) prev) with (last (m :: rest) prev).
  now rewrite !IH.
Qed.

Lemma playMelodyNote_sounding (w : World) (prev n : NoteVal)
    (Hstarted : audioStarted (st w) = true)
    (Hmelody : melodySynth w = true)
    (Hok : forall c, faulty w c = false)
    (Hplaying : rightHandIsPlaying (st w) = true)
    (Hlast : lastMelodyNote (st w) = Some prev)
    (Hcurrent : currentMelodyNote (st w) = Some prev) :
  let w' := snd (playMelodyNote n w) in
  fst (playMelodyNote n w) = Ok tt /\
  calls w' = calls w
             ++ (if note_sne n (Some prev)
                 then [MelodyTriggerRelease (Some 0.02); MelodyTriggerAttack n 0.07 0.7]
                 else []) /\
  audioStarted (st w') = true /\
  melodySynth w' = true /\
  faulty w' = faulty w /\
  rightHandIsPlaying (st w') = true /\
  lastMelodyNote (st w') = Some n /\
  currentMelodyNote (st w') = Some n /\
  timers w' = timers w.
Proof.
  cbv zeta. unfold playMelodyNote. open_world' w.
  destruct (note_sne n (Some prev)) eqn:E; evs ltac:(rewrite ?Hok).
  - rewrite <- ?app_assoc. repeat split; reflexivity.
  - apply note_sne_false in E. subst. rewrite ?app_nil_r. repeat split; reflexivity.
Qed.

Lemma playLine_sounding (ns : list NoteVal) :
  forall (w : World) (prev : NoteVal),
    audioStarted (st w) = true ->
    melodySynth w = true ->
    (forall c, faulty w c = false) ->
    rightHandIsPlaying (st w) = true ->
    lastMelodyNote (st w) = Some prev ->
    currentMelodyNote (st w) = Some prev ->
    let w' := snd (playLine ns w) in
    fst (playLine ns w) = Ok tt /\
    calls w' = calls w ++ glides prev ns /\
    rightHandIsPlaying (st w') = true /\
    currentMelodyNote (st w') = Some (last ns prev) /\
    timers w' = timers w.
Proof.
  induction ns as [| n rest IH]; intros w prev Hs Hm Hok Hp Hl Hc; cbv zeta.
  - cbn [playLine glides last]. unfold ret. cbn [fst snd].
    rewrite app_nil_r. repeat split; assumption.
  - destruct (playMelodyNote_sounding w prev n Hs Hm Hok Hp Hl Hc)
      as [Hfst [Hcalls [Hs' [Hm' [Hf' [Hp' [Hl' [Hc' Ht']]]]]]]].
    cbn [playLine glides]. unfold bind.
    destruct (playMelodyNote n w) as [o w1]. cbn [fst snd] in *. subst o.
    assert (Hok' : forall c, faulty w1 c = false) by (intro c; rewrite Hf'; apply Hok).
    destruct (IH w1 n Hs' Hm' Hok' Hp' Hl' Hc') as [Hfst' [Hcalls' [Hp'' [Hc'' Ht'']]]].
    split; [exact Hfst' |]. split.
    + rewrite Hcalls', Hcalls. now rewrite <- app_assoc.
    + split; [exact Hp'' |]. split; [| congruence].
      rewrite Hc''. now rewrite last_cons.
Qed.

(** X15.  A line of notes played with playMelodyNote on an idle melody
    voice attacks the first note at velocity 0.8 and then, for every note
    that differs from its predecessor, releases 0.02 s ahead and attacks
    the new note 0.07 s ahead at velocity 0.7; a repeated note makes no
    engine call; no call throws, no timer is set, the voice ends playing
    and the current note is the last note of the line. *)
Theorem melody_line_calls (w : World) (first : NoteVal) (rest : list NoteVal)
    (Hstarted : audioStarted (st w) = true)
    (Hmelody : melodySynth w = true)
    (Hok : forall c, faulty w c = false)
    (Hidle : rightHandIsPlaying (st w) = false) :
  let w' := snd (playLine (first :: rest) w) in
  fst (playLine (first :: rest) w) = Ok tt /\
  calls w' = calls w ++ MelodyTriggerAttack first 0 0.8 :: glides first rest /\
  rightHandIsPlaying (st w') = true /\
  currentMelodyNote (st w') = Some (last rest first) /\
  timers w' = timers w.
Proof.
  cbv zeta.
  assert (Hfirst : let w1 := snd (playMelodyNote first w) in
            fst (playMelodyNote first w) = Ok tt /\
            calls w1 = calls w ++ [MelodyTriggerAttack first 0 0.8] /\
            audioStarted (st w1) = true /\
            melodySynth w1 = true /\
            faulty w1 = faulty w /\
            rightHandIsPlaying (st w1) = true /\
            lastMelodyNote (st w1) = Some first /\
            currentMelodyNote (st w1) = Some first /\
            timers w1 = timers w).
  { cbv zeta. unfold playMelodyNote. clear rest. open_world' w.
    evs ltac:(rewrite ?Hok). repeat split; reflexivity. }
  destruct Hfirst as [Hfst [Hcalls [Hs' [Hm' [Hf' [Hp' [Hl' [Hc' Ht']]]]]]]].
  cbn [playLine]. unfold bind.
  destruct (playMelodyNote first w) as [o w1]. cbn [fst snd] in *. subst o.
  assert (Hok' : forall c, faulty w1 c = false) by (intro c; rewrite Hf'; apply Hok).
  destruct (playLine_sounding rest w1 first Hs' Hm' Hok' Hp' Hl' Hc')
    as [Hfst' [Hcalls' [Hp'' [Hc'' Ht'']]]].
  split; [exact Hfst' |]. split.
  - rewrite Hcalls', Hcalls. now rewrite <- app_assoc.
  - split; [exact Hp'' |]. split; [exact Hc'' | congruence].
Qed.

Lemma melody_line_calls_witness :
  calls (snd (playLine [NoteStr "C4"; NoteStr "C4"; NoteStr "D4"] worldReady))
  = calls worldReady
    ++ MelodyTriggerAttack (NoteStr "C4") 0 0.8
       :: glides (NoteStr "C4") [NoteStr "C4"; NoteStr "D4"].
Proof.
  exact (proj1 (proj2 (melody_line_calls worldReady (NoteStr "C4")
                         [NoteStr "C4"; NoteStr "D4"]
                         eq_refl eq_refl (fun c => eq_refl) eq_refl))).
Defined.

End MelodyLine.

(** ** Whole frames of the tracker *)

Section Frames.

Variable Math_sqrt : Q -> Q.

(** X16.  When a hand labelled 'Left' with 21 landmarks appears in an
    idle, started application and then disappears, the first frame writes
    the reverb and possibly the melody gain and then attacks exactly one
    melody note (the note of the wrist height), the first frame without
    hands releases it, and the next frame without hands makes no engine
    call. *)
Theorem hand_appears_then_leaves (w : World) (landmarks : Landmarks)
    (scaleArray : list Z) (empty : Results)
    (Hlen : List.length landmarks = 21%nat)
    (Hnone : handsOf empty = [])
    (Hkey : prop scales (selectedScale (st w)) = Some scaleArray)
    (Hstarted : audioStarted (st w) = true)
    (Hcanvas : canvas w = true)
    (Hmelody : melodySynth w = true)
    (Hreverb : reverb w = true)
    (Hok : forall c, faulty w c = false)
    (Hidle : rightHandIsPlaying (st w) = false)
    (Hidle' : leftHandIsPlaying (st w) = false) :
  let appear := onHandResults Math_sqrt (mkResults (Some [landmarks]) (Some ["Left"])) in
  let absent := onHandResults Math_sqrt empty in
  let w1 := snd (appear w) in
  let w2 := snd (absent w1) in
  let w3 := snd (absent w2) in
  exists wrist note controls,
    index landmarks 0 = Some wrist /\
    fst (getNoteFromPosition (py wrist) (selectedScale (st w)) w) = Ok note /\
    Forall (fun c => target c = ReverbEffect \/ exists g, c = MelodyVolume g) controls /\
    calls w1 = calls w ++ controls ++ [MelodyTriggerAttack note 0 0.8] /\
    rightHandIsPlaying (st w1) = true /\
    calls w2 = calls w1 ++ [MelodyTriggerRelease None] /\
    rightHandIsPlaying (st w2) = false /\
    calls w3 = calls w2.
Proof.
  cbv zeta. split_landmarks landmarks Hlen.
  match goal with
  | |- context [index ?l 0] => set (lm := l)
  end.
  change (index lm 0) with (Some p).
  destruct (getNoteFromPosition_defined w (py p) _ _ Hkey) as [note Hnote].
  apply (f_equal fst) in Hnote. cbn [fst] in Hnote.
  pose proof (fun W => getNoteFromPosition_run w W (py p) _ note Hnote) as Hrun.
  set (pinch := calculateDistance Math_sqrt (index lm 4) (index lm 8)).
  set (spread := calculateDistance Math_sqrt (index lm 12) (index lm 4)).
  exists p, note.
  exists ([ReverbWet (mapPinchToReverb pinch)]
          ++ if num_sne (leftHandVolume (st w)) (mapFingerToVolume spread)
             then [MelodyVolume (mapFingerToVolume spread)] else []).
  split; [reflexivity |]. split; [exact Hnote |].
  split.
  { cbn [app]. constructor; [left; reflexivity |].
    destruct (num_sne _ _); constructor; [right; eexists; reflexivity | constructor]. }
  clear Hnote Hkey.
  unfold onHandResults. rewrite Hnone.
  unfold handsOf, multiHandLandmarks, multiHandedness.
  cbn [processHands processHand nth_error List.length Nat.eqb].
  eqb_literals.
  unfold processRightHand.
  change (index lm 0) with (Some p).
  change (8 <? Z.of_nat (List.length lm))%Z with true.
  assert (Ht : index lm 4 = Some p3) by reflexivity.
  assert (Hi : index lm 8 = Some p7) by reflexivity.
  assert (Hm : index lm 12 = Some p11) by reflexivity.
  fold pinch spread.
  unfold drawNoteName, drawReverbVisualization, drawVolumeVisualization.
  rewrite Ht, Hi, Hm. unfold usePoint.
  unfold setReverb, setVolume, playMelodyNote, stopMelody, stopChord.
  rewrite (clamp01_idem _ (mapPinchToReverb_bounds pinch)).
  rewrite (clamp01_idem _ (mapFingerToVolume_bounds spread)).
  clearbody lm pinch spread. clear Ht Hi Hm.
  open_world' w. eqb_literals.
  destruct lp_, rp_, hd_; evs ltac:(rewrite ?Hok);
    destruct (num_sne lv_ (mapFingerToVolume spread));
    evs ltac:(rewrite ?Hok; rewrite ?Hrun by reflexivity);
    rewrite <- ?app_assoc, ?app_nil_r; cbn [app]; repeat split; reflexivity.
Qed.

End Frames.

Section ShortHand.

Variable Math_sqrt : Q -> Q.

(** X17.  A hand of at most eight landmarks counts as present for its role
    but drives nothing: no reverb, gain, attack or release of its own
    voice is issued, the play flag and current note or chord of its own
    voice are unchanged, and the only possible engine call of the frame is
    the release of the other voice when the other hand was present and
    playing before. *)
Theorem short_hand_is_present_but_silent (w : World) (landmarks : Landmarks)
    (label : string)
    (Hshort : (List.length landmarks <= 8)%nat)
    (Hcanvas : canvas w = true)
    (Hmelody : melodySynth w = true)
    (Hharmony : harmonySynth w = true)
    (Hok : forall c, faulty w c = false) :
  let w1 := snd (onHandResults Math_sqrt
                   (mkResults (Some [landmarks]) (Some [label])) w) in
  let melodyHand := String.eqb label "Left" in
  handDetected (st w1) = true /\
  isRightHandPresent (st w1) = melodyHand /\
  isLeftHandPresent (st w1) = negb melodyHand /\
  calls w1
  = calls w
    ++ (if melodyHand
        then if isLeftHandPresent (st w) && leftHandIsPlaying (st w)
             then [HarmonyReleaseAll None] else []
        else if isRightHandPresent (st w) && rightHandIsPlaying (st w)
             then [MelodyTriggerRelease None] else []) /\
  (if melodyHand
   then rightHandIsPlaying (st w1) = rightHandIsPlaying (st w) /\
        currentMelodyNote (st w1) = currentMelodyNote (st w)
   else leftHandIsPlaying (st w1) = leftHandIsPlaying (st w) /\
        currentChord (st w1) = currentChord (st w)).
Proof.
  cbv zeta.
  assert (Hguard : (8 <? Z.of_nat (List.length landmarks))%Z = false)
    by (apply Z.ltb_ge; lia).
  unfold onHandResults, handsOf, multiHandLandmarks, multiHandedness.
  cbn [processHands processHand nth_error List.length Nat.eqb].
  unfold processRightHand, processLeftHand. rewrite Hguard.
  unfold stopMelody, stopChord.
  open_world' w.
  destruct (String.eqb label "Left"), hd_, lp_, rp_, lpl_, rpl_;
    evs ltac:(rewrite ?Hok);
    rewrite ?app_nil_r; repeat split; reflexivity.
Qed.

End ShortHand.

Lemma short_hand_is_present_but_silent_witness :
  calls (snd (onHandResults sqrt_micro
                (mkResults (Some [stub_hand]) (Some ["Left"]))
                (snd (playMelodyNote (NoteStr "C4") worldReady))))
  = [MelodyTriggerAttack (NoteStr "C4") 0 0.8] ++ [].
Proof.
  exact (proj1 (proj2 (proj2 (proj2
    (short_hand_is_present_but_silent sqrt_micro
       (snd (playMelodyNote (NoteStr "C4") worldReady)) stub_hand "Left"
       ltac:(cbn; lia) eq_refl eq_refl eq_refl (fun c => eq_refl)))))).
Defined.

Section TwoHands.

Variable Math_sqrt : Q -> Q.

(** X18.  A frame with a hand labelled 'Left' followed by a hand labelled
    'Right', both of 21 landmarks, on an idle started application starts
    both voices: the engine sees the reverb and possibly the melody gain
    of the first hand, one melody attack of the note at its wrist height,
    then the reverb and possibly the harmony gain of the second hand and
    one harmony attack of the chord at its wrist height; the reverb thus
    ends on the second hand's pinch, both hands are present and playing,
    and no timer is set. *)
Theorem two_hands_frame (w : World) (melodyHand harmonyHand : Landmarks)
    (scaleArray : list Z)
    (Hlen : List.length melodyHand = 21%nat)
    (Hlen' : List.length harmonyHand = 21%nat)
    (Hkey : prop scales (selectedScale (st w)) = Some scaleArray)
    (Hstarted : audioStarted (st w) = true)
    (Hcanvas : canvas w = true)
    (Hmelody : melodySynth w = true)
    (Hharmony : harmonySynth w = true)
    (Hreverb : reverb w = true)
    (Hok : forall c, faulty w c = false)
    (Hidle : rightHandIsPlaying (st w) = false)
    (Hidle' : leftHandIsPlaying (st w) = false) :
  let results := mkResults (Some [melodyHand; harmonyHand]) (Some ["Left"; "Right"]) in
  let w1 := snd (onHandResults Math_sqrt results w) in
  let pinchM := calculateDistance Math_sqrt (index melodyHand 4) (index melodyHand 8) in
  let pinchH := calculateDistance Math_sqrt (index harmonyHand 4) (index harmonyHand 8) in
  exists wristM note wristH chord gainM gainH,
    index melodyHand 0 = Some wristM /\
    fst (getNoteFromPosition (py wristM) (selectedScale (st w)) w) = Ok note /\
    index harmonyHand 0 = Some wristH /\
    fst (getChordFromPosition (py wristH) w) = Ok chord /\
    Forall (fun c => exists g, c = MelodyVolume g) gainM /\
    Forall (fun c => exists g, c = HarmonyVolume g) gainH /\
    calls w1 = calls w
               ++ [ReverbWet (mapPinchToReverb pinchM)] ++ gainM
               ++ [MelodyTriggerAttack note 0 0.8]
               ++ [ReverbWet (mapPinchToReverb pinchH)] ++ gainH
               ++ [HarmonyTriggerAttack (chord_notes chord) 0 0.6] /\
    rightHandIsPlaying (st w1) = true /\
    leftHandIsPlaying (st w1) = true /\
    isRightHandPresent (st w1) = true /\
    isLeftHandPresent (st w1) = true /\
    timers w1 = timers w.
Proof.
  cbv zeta.
  split_landmarks melodyHand Hlen.
  match goal with
  | |- context [index ?l 0] => set (lm := l)
  end.
  destruct harmonyHand as [| q harmonyHand]; [discriminate Hlen' |].
  do 20 (destruct harmonyHand as [| ? harmonyHand]; [discriminate Hlen' |]).
  destruct harmonyHand; [| discriminate Hlen'].
  match goal with
  | |- context [index (q :: ?l) 0] => set (lh := q :: l)
  end.
  change (index lm 0) with (Some p). change (index lh 0) with (Some q).
  destruct (getNoteFromPosition_defined w (py p) _ _ Hkey) as [note Hnote].
  apply (f_equal fst) in Hnote. cbn [fst] in Hnote.
  destruct (getChordFromPosition_defined w (py q) _ Hkey) as [chord [Hchord _]].
  apply (f_equal fst) in Hchord. cbn [fst] in Hchord.
  pose proof (fun W => getNoteFromPosition_run w W (py p) _ note Hnote) as Hrun.
  pose proof (fun W => getChordFromPosition_run w W (py q) chord Hchord) as Hrun'.
  set (pinchM := calculateDistance Math_sqrt (index lm 4) (index lm 8)).
  set (spreadM := calculateDistance Math_sqrt (index lm 12) (index lm 4)).
  set (pinchH := calculateDistance Math_sqrt (index lh 4) (index lh 8)).
  set (spreadH := calculateDistance Math_sqrt (index lh 12) (index lh 4)).
  exists p, note, q, chord.
  exists (if num_sne (leftHandVolume (st w)) (mapFingerToVolume spreadM)
          then [MelodyVolume (mapFingerToVolume spreadM)] else []).
  exists (if num_sne (rightHandVolume (st w)) (mapFingerToVolume spreadH)
          then [HarmonyVolume (mapFingerToVolume spreadH * 0.6)] else []).
  split; [reflexivity |]. split; [exact Hnote |].
  split; [reflexivity |]. split; [exact Hchord |].
  split.
  { destruct (num_sne _ _); constructor; [eexists; reflexivity | constructor]. }
  split.
  { destruct (num_sne _ _); constructor; [eexists; reflexivity | constructor]. }
  clear Hnote Hchord Hkey.
  unfold onHandResults, handsOf, multiHandLandmarks, multiHandedness.
  cbn [processHands processHand nth_error List.length Nat.eqb].
  eqb_literals.
  unfold processRightHand, processLeftHand.
  change (index lm 0) with (Some p). change (index lh 0) with (Some q).
  change (8 <? Z.of_nat (List.length lm))%Z with true.
  change (8 <? Z.of_nat (List.length lh))%Z with true.
  assert (Ht : index lm 4 = Some p3) by reflexivity.
  assert (Hi : index lm 8 = Some p7) by reflexivity.
  assert (Hm : index lm 12 = Some p11) by reflexivity.
  assert (Ht' : exists a, index lh 4 = Some a) by (eexists; reflexivity).
  assert (Hi' : exists a, index lh 8 = Some a) by (eexists; reflexivity).
  assert (Hm' : exists a, index lh 12 = Some a) by (eexists; reflexivity).
  destruct Ht' as [a4 Ht'], Hi' as [a8 Hi'], Hm' as [a12 Hm'].
  fold pinchM spreadM pinchH spreadH.
  unfold drawNoteName, drawChordName, drawReverbVisualization,
    drawVolumeVisualization.
  rewrite Ht, Hi, Hm, Ht', Hi', Hm'. unfold usePoint.
  unfold setReverb, setVolume, playMelodyNote, playChord, stopMelody, stopChord.
  rewrite (clamp01_idem _ (mapPinchToReverb_bounds pinchM)).
  rewrite (clamp01_idem _ (mapFingerToVolume_bounds spreadM)).
  rewrite (clamp01_idem _ (mapPinchToReverb_bounds pinchH)).
  rewrite (clamp01_idem _ (mapFingerToVolume_bounds spreadH)).
  clearbody lm lh pinchM spreadM pinchH spreadH. clear Ht Hi Hm Ht' Hi' Hm'.
  open_world' w. eqb_literals.
  destruct lp_, rp_, hd_; evs ltac:(rewrite ?Hok);
    destruct (num_sne lv_ (mapFingerToVolume spreadM));
    evs ltac:(rewrite ?Hok; rewrite ?Hrun by reflexivity);
    destruct (num_sne rvol_ (mapFingerToVolume spreadH));
    evs ltac:(rewrite ?Hok; rewrite ?Hrun' by reflexivity);
    rewrite <- ?app_assoc, ?app_nil_r; cbn [app]; repeat split; reflexivity.
Qed.

End TwoHands.

Lemma two_hands_frame_witness :
  let results := mkResults (Some [hand_at 0.5; hand_at 0.25]) (Some ["Left"; "Right"]) in
  let w1 := snd (onHandResults sqrt_micro results worldReady) in
  rightHandIsPlaying (st w1) = true /\ leftHandIsPlaying (st w1) = true.
Proof.
  destruct (two_hands_frame sqrt_micro worldReady (hand_at 0.5) (hand_at 0.25)
              [0; 2; 4; 5; 7; 9; 11; 12]%Z
              eq_refl eq_refl eq_refl eq_refl eq_refl eq_refl eq_refl eq_refl
              (fun c => eq_refl) eq_refl eq_refl)
    as [wristM [note [wristH [chord [gainM [gainH
         [_ [_ [_ [_ [_ [_ [_ [H1 [H2 _]]]]]]]]]]]]]]].
  split; [exact H1 | exact H2].
Defined.

(** ** utils/gestures.js *)

Section GestureRecognition.

Variable Math_sqrt : Q -> Q.

Lemma Qlt_bool_true (a b : Q) : Qlt_bool a b = true -> a < b.
Proof.
  unfold Qlt_bool. intro H. apply negb_true_iff in H.
  apply Qnot_le_lt. intro Hle. apply Qle_bool_iff in Hle. congruence.
Qed.

Lemma pinch_strength_formula (d : Q) :
  Math_max 0 (Math_min 1 (1 - (d - MIN_PINCH_DIST) / (MAX_PINCH_DIST - MIN_PINCH_DIST)))
  == 1 - mapPinchToReverb (Fin d).
Proof.
  rewrite mapPinchToReverb_Fin.
  set (x := (d - MIN_PINCH_DIST) / (MAX_PINCH_DIST - MIN_PINCH_DIST)).
  destruct (Math_min_spec 1 (1 - x)) as [[H1 E1] | [H1 E1]]; rewrite E1;
  destruct (Math_min_spec x 1) as [[H2 E2] | [H2 E2]]; rewrite E2;
  match goal with
  | |- Math_max 0 ?a == 1 - Math_max 0 ?b =>
      destruct (Math_max_spec 0 a) as [[H3 E3] | [H3 E3]]; rewrite E3;
      destruct (Math_max_spec 0 b) as [[H4 E4] | [H4 E4]]; rewrite ?E4
  end; lra.
Qed.

(** X19.  For a hand of at least 21 landmarks, detectPinch measures the
    same thumb-to-index distance as the hand processing does, and its
    strength is one minus the reverb level that mapPinchToReverb derives
    from that distance; it lies in [0, 1]. *)
Theorem pinch_strength_complements_reverb (landmarks : Landmarks)
    (Hlen : (21 <= List.length landmarks)%nat) :
  let pinch := Gestures.detectPinch Math_sqrt (Some landmarks) in
  Gestures.distance pinch
  = calculateDistance Math_sqrt (index landmarks 4) (index landmarks 8) /\
  Gestures.strength pinch == 1 - mapPinchToReverb (Gestures.distance pinch) /\
  0 <= Gestures.strength pinch <= 1.
Proof.
  cbv zeta. unfold Gestures.detectPinch.
  destruct (Z.of_nat (List.length landmarks) <? 21)%Z eqn:E;
    [apply Z.ltb_lt in E; lia |].
  cbn [Gestures.distance Gestures.strength].
  split; [reflexivity |].
  destruct (calculateDistance Math_sqrt (index landmarks 4) (index landmarks 8))
    as [d |].
  - split; [apply pinch_strength_formula |].
    apply clamp_bounds. lra.
  - split; [reflexivity | split; discriminate].
Qed.

Lemma close_pinch_strength (d : Q) :
  d < 0.05 ->
  5 # 9 < Math_max 0
            (Math_min 1 (1 - (d - MIN_PINCH_DIST) / (MAX_PINCH_DIST - MIN_PINCH_DIST)))
  /\ Math_max 0
       (Math_min 1 (1 - (d - MIN_PINCH_DIST) / (MAX_PINCH_DIST - MIN_PINCH_DIST)))
     <= 1.
Proof.
  intro Hd.
  set (v := 1 - (d - MIN_PINCH_DIST) / (MAX_PINCH_DIST - MIN_PINCH_DIST)).
  assert (Hv : 5 # 9 < v).
  { unfold v, MIN_PINCH_DIST, MAX_PINCH_DIST.
    assert (E' : (d - 0.01) / (0.1 - 0.01) < 4 # 9).
    { apply Qlt_shift_div_r; lra. }
    lra. }
  pose proof (clamp_bounds 0 1 v ltac:(lra)) as [_ Hhi].
  split; [| exact Hhi].
  destruct (Math_min_spec 1 v) as [[H1 E1] | [H1 E1]]; rewrite E1;
  match goal with
  | |- _ < Math_max 0 ?a =>
      destruct (Math_max_spec 0 a) as [[H3 E3] | [H3 E3]]; rewrite E3
  end; lra.
Qed.

(** A reported pinch has a finite distance below half of
    [MAX_PINCH_DIST]. *)
Lemma pinching_distance (lm : Landmarks) :
  Gestures.isPinching (Gestures.detectPinch Math_sqrt (Some lm)) = true ->
  (21 <= List.length lm)%nat /\
  exists d,
    calculateDistance Math_sqrt (index lm 4) (index lm 8) = Fin d /\ d < 0.05.
Proof.
  unfold Gestures.detectPinch.
  destruct (Z.of_nat (List.length lm) <? 21)%Z eqn:E; [discriminate |].
  apply Z.ltb_ge in E. cbn [Gestures.isPinching].
  destruct (calculateDistance Math_sqrt (index lm 4) (index lm 8)) as [d |];
    [| discriminate].
  cbn [Gestures.Num_lt]. intro H. apply Qlt_bool_true in H.
  split; [lia |]. exists d. split; [reflexivity |].
  unfold MAX_PINCH_DIST in H. lra.
Qed.

Lemma pinching_strength (landmarks : option Landmarks) :
  Gestures.isPinching (Gestures.detectPinch Math_sqrt landmarks) = true ->
  5 # 9 < Gestures.strength (Gestures.detectPinch Math_sqrt landmarks) /\
  Gestures.strength (Gestures.detectPinch Math_sqrt landmarks) <= 1.
Proof.
  destruct landmarks as [lm |]; [| discriminate].
  intro Hp. destruct (pinching_distance lm Hp) as [Hlen [d [Hd Hlt]]].
  unfold Gestures.detectPinch.
  destruct (Z.of_nat (List.length lm) <? 21)%Z eqn:E; [apply Z.ltb_lt in E; lia |].
  cbn [Gestures.strength]. rewrite Hd. now apply close_pinch_strength.
Qed.

(** X20.  detectPinch reports a pinch only for a hand of at least 21
    landmarks whose thumb-to-index distance is finite and below 0.05, and
    the strength of a reported pinch is above 5/9 and at most 1. *)
Theorem pinching_is_strong (landmarks : option Landmarks)
    (Hpinch : Gestures.isPinching (Gestures.detectPinch Math_sqrt landmarks) = true) :
  let pinch := Gestures.detectPinch Math_sqrt landmarks in
  (exists lm, landmarks = Some lm /\ (21 <= List.length lm)%nat) /\
  (exists d, Gestures.distance pinch = Fin d /\ d < 0.05) /\
  5 # 9 < Gestures.strength pinch /\
  Gestures.strength pinch <= 1.
Proof.
  cbv zeta. pose proof (pinching_strength landmarks Hpinch) as Hstrength.
  destruct landmarks as [lm |]; [| discriminate Hpinch].
  destruct (pinching_distance lm Hpinch) as [Hlen [d [Hd Hlt]]].
  split; [exists lm; split; [reflexivity | exact Hlen] |].
  split; [| exact Hstrength].
  exists d. split; [| exact Hlt].
  unfold Gestures.detectPinch.
  destruct (Z.of_nat (List.length lm) <? 21)%Z eqn:E; [apply Z.ltb_lt in E; lia |].
  cbn [Gestures.distance]. exact Hd.
Qed.

(** X21.  The confidence of recognizeGesture lies in [0, 1]; it is 0
    exactly when the landmarks are missing or fewer than 21; and the
    gesture is named 'pinch' exactly when detectPinch reports a pinch,
    whatever the fingers do. *)
Theorem gesture_confidence_zero_iff_short (landmarks : option Landmarks) :
  let gesture := Gestures.recognizeGesture Math_sqrt landmarks in
  0 <= Gestures.confidence gesture <= 1 /\
  (Gestures.confidence gesture == 0 <->
   landmarks = None \/
   exists lm, landmarks = Some lm /\ (List.length lm < 21)%nat) /\
  (Gestures.gesture_name gesture = "pinch" <->
   Gestures.isPinching (Gestures.detectPinch Math_sqrt landmarks) = true).
Proof.
  cbv zeta. unfold Gestures.recognizeGesture.
  destruct landmarks as [lm |].
  - destruct (Z.of_nat (List.length lm) <? 21)%Z eqn:E.
    + apply Z.ltb_lt in E. cbn [Gestures.confidence Gestures.gesture_name].
      split; [split; discriminate |]. split.
      * split; [intros _; right; exists lm; split; [reflexivity | lia] | reflexivity].
      * split; [discriminate |].
        unfold Gestures.detectPinch.
        destruct (Z.of_nat (List.length lm) <? 21)%Z eqn:E'; [discriminate | lia].
    + apply Z.ltb_ge in E.
      assert (Hlong : ~ (Some lm = None \/
                exists lm', Some lm = Some lm' /\ (List.length lm' < 21)%nat)).
      { intros [H | [lm' [H Hl]]]; [discriminate | inversion H; subst; lia]. }
      destruct (Gestures.isPinching (Gestures.detectPinch Math_sqrt (Some lm))) eqn:Hp.
      * destruct (pinching_strength (Some lm) Hp) as [Hlo Hhi].
        cbn [Gestures.confidence Gestures.gesture_name].
        split; [split; lra |]. split.
        -- split; [intro H; lra | intro H; now destruct Hlong].
        -- split; reflexivity.
      * repeat match goal with
               | |- context [if ?b then _ else _] => destruct b
               end;
        cbn [Gestures.confidence Gestures.gesture_name];
        (split; [split; lra |]);
        (split; [split; [intro H; lra | intro H; now destruct Hlong]
                | split; discriminate]).
  - cbn [Gestures.confidence Gestures.gesture_name].
    split; [split; discriminate |]. split.
    + split; [intros _; now left | reflexivity].
    + split; discriminate.
Qed.

End GestureRecognition.

(** ** visual/keyboard.js *)

Section KeyboardMarkers.

(** At a vertical position whose scale-step index is [i], the note of
    [getNoteFromPosition] is the note that [createVisualKeyboard] gives
    to the key [i]. *)
Lemma getNoteFromPosition_keyNote (w : World) (y : Q) (scale : string)
    (scaleArray : list Z) (i : Z) :
  prop scales scale = Some scaleArray ->
  Math_floor (mapRange y 0.0 1.0 14 0) = i ->
  getNoteFromPosition y scale w
  = (Ok (Keyboard.keyNote (st w) scaleArray i),
     snd (modifyState (set_lastRightHandY y) w)).
Proof.
  intros Hkey Hpos.
  unfold getNoteFromPosition, Keyboard.keyNote, bind, getState, modifyState.
  cbv beta iota zeta. rewrite Hkey, Hpos.
  destruct (index scaleArray (rem i (Z.of_nat (List.length scaleArray))));
    reflexivity.
Qed.

Lemma getNoteFromPosition_unknown_scale (w : World) (y : Q) (scale : string) :
  prop scales scale = None ->
  getNoteFromPosition y scale w
  = (Throw (TypeError "scaleArray is undefined"),
     snd (modifyState (set_lastRightHandY y) w)).
Proof.
  intro Hkey.
  unfold getNoteFromPosition, bind, getState, modifyState.
  cbv beta iota zeta. now rewrite Hkey.
Qed.

Lemma keyNote_same_key (s s' : State) (scaleArray : list Z) (i : Z) :
  selectedRoot s' = selectedRoot s -> octave s' = octave s ->
  Keyboard.keyNote s' scaleArray i = Keyboard.keyNote s scaleArray i.
Proof. intros Hr Ho. unfold Keyboard.keyNote. now rewrite Hr, Ho. Qed.

Lemma forEachIndex_pure {A : Type} (f : Z -> A) (count : nat) :
  forall (start : Z) (w : World),
    Keyboard.forEachIndex (fun i => ret (f i)) start count w
    = (Ok (map (fun k => f (start + Z.of_nat k)%Z) (seq 0 count)), w).
Proof.
  induction count as [| count IH]; intros start w.
  - reflexivity.
  - cbn [Keyboard.forEachIndex]. unfold bind at 1, ret at 1.
    unfold bind at 1. rewrite IH. unfold ret. cbn [seq map].
    rewrite Z.add_0_r. do 3 f_equal.
    rewrite <- seq_shift, map_map. apply map_ext. intro k. f_equal. lia.
Qed.

Lemma forEachIndex_step {A : Type} (body : Z -> M A) (start : Z) (count : nat)
    (W : World) :
  Keyboard.forEachIndex body start (S count) W
  = match body start W with
    | (Ok a, W') =>
        match Keyboard.forEachIndex body (start + 1)%Z count W' with
        | (Ok rest, W'') => (Ok (a :: rest), W'')
        | (Throw e, W'') => (Throw e, W'')
        end
    | (Throw e, W') => (Throw e, W')
    end.
Proof.
  cbn [Keyboard.forEachIndex]. unfold bind, ret.
  destruct (body start W) as [[a | e] W']; [| reflexivity].
  destruct (Keyboard.forEachIndex body (start + 1)%Z count W')
    as [[rest | e] W'']; reflexivity.
Qed.

Lemma forEachSecondIndex_step {A : Type} (body : Z -> M A) (start : Z) (count : nat)
    (W : World) :
  Keyboard.forEachSecondIndex body start (S count) W
  = match body start W with
    | (Ok a, W') =>
        match Keyboard.forEachSecondIndex body (start + 2)%Z count W' with
        | (Ok rest, W'') => (Ok (a :: rest), W'')
        | (Throw e, W'') => (Throw e, W'')
        end
    | (Throw e, W') => (Throw e, W')
    end.
Proof.
  cbn [Keyboard.forEachSecondIndex]. unfold bind, ret.
  destruct (body start W) as [[a | e] W']; [| reflexivity].
  destruct (Keyboard.forEachSecondIndex body (start + 2)%Z count W')
    as [[rest | e] W'']; reflexivity.
Qed.

Lemma labelledLines_guards (i : Z) :
  In i labelledLines ->
  ((rem i 2 =? 0)%Z && (i <? Keyboard.gridLines)%Z) = true /\
  (i <? Keyboard.gridLines)%Z = true /\
  Math_floor (mapRange (mapRange (inject_Z i) 0 (inject_Z Keyboard.gridLines) 1.0 0.0)
                0.0 1.0 14 0) = i.
Proof.
  unfold labelledLines. cbn [In]. intro Hi.
  repeat (destruct Hi as [<- | Hi]; [repeat split; reflexivity |]). contradiction.
Qed.

Section KnownScale.

Variables (w : World) (scaleArray : list Z).
Hypothesis Hkey : prop scales (selectedScale (st w)) = Some scaleArray.

(** A labelled grid line in a world that differs from [w] in the last
    hand position at most. *)
Lemma noteMarker_labelled (W : World) (i : Z) :
  In i labelledLines ->
  selectedScale (st W) = selectedScale (st w) ->
  selectedRoot (st W) = selectedRoot (st w) ->
  octave (st W) = octave (st w) ->
  Keyboard.noteMarker i W
  = (Ok (Keyboard.mkMarker
           (mapRange (inject_Z i) 0 (inject_Z Keyboard.gridLines) 5 95)
           (i =? 7)%Z
           (Some (Keyboard.keyNote (st w) scaleArray i))),
     snd (modifyState
            (set_lastRightHandY
               (mapRange (inject_Z i) 0 (inject_Z Keyboard.gridLines) 1.0 0.0))
            W)).
Proof.
  intros Hi Hs Hr Ho. destruct (labelledLines_guards i Hi) as [Hcond [_ Hpos]].
  unfold Keyboard.noteMarker. rewrite Hcond.
  unfold bind at 1, getState at 1. unfold bind at 1. rewrite Hs.
  rewrite (getNoteFromPosition_keyNote W _ _ scaleArray i Hkey Hpos).
  unfold ret. now rewrite (keyNote_same_key (st w) (st W) scaleArray i Hr Ho).
Qed.

Lemma noteLabel_labelled (W : World) (i : Z) :
  In i labelledLines ->
  selectedScale (st W) = selectedScale (st w) ->
  selectedRoot (st W) = selectedRoot (st w) ->
  octave (st W) = octave (st w) ->
  Keyboard.noteLabel i W
  = (Ok [(mapRange (inject_Z i) 0 (inject_Z Keyboard.gridLines) 5 95,
          Keyboard.keyNote (st w) scaleArray i)],
     snd (modifyState
            (set_lastRightHandY
               (mapRange (inject_Z i) 0 (inject_Z Keyboard.gridLines) 1.0 0.0))
            W)).
Proof.
  intros Hi Hs Hr Ho. destruct (labelledLines_guards i Hi) as [_ [Hcond Hpos]].
  unfold Keyboard.noteLabel. rewrite Hcond.
  unfold bind at 1, getState at 1. unfold bind at 1. rewrite Hs.
  rewrite (getNoteFromPosition_keyNote W _ _ scaleArray i Hkey Hpos).
  unfold ret. now rewrite (keyNote_same_key (st w) (st W) scaleArray i Hr Ho).
Qed.

End KnownScale.

Lemma noteMarker_plain (W : World) (i : Z) :
  ~ In i labelledLines -> (0 <= i <= 14)%Z ->
  Keyboard.noteMarker i W
  = (Ok (Keyboard.mkMarker
           (mapRange (inject_Z i) 0 (inject_Z Keyboard.gridLines) 5 95)
           (i =? 7)%Z None), W).
Proof.
  intros Hi Hrange. unfold Keyboard.noteMarker.
  assert (Hcases : In i [1; 3; 5; 7; 9; 11; 13; 14]%Z).
  { unfold labelledLines in Hi. cbn [In] in *. lia. }
  cbn [In] in Hcases.
  repeat (destruct Hcases as [<- | Hcases]; [reflexivity |]). contradiction.
Qed.

Lemma first_line_unknown_scale (w : World) :
  prop scales (selectedScale (st w)) = None ->
  Keyboard.noteMarker 0 w
  = (Throw (TypeError "scaleArray is undefined"),
     snd (modifyState
            (set_lastRightHandY
               (mapRange (inject_Z 0) 0 (inject_Z Keyboard.gridLines) 1.0 0.0)) w)).
Proof.
  intro Hkey. unfold Keyboard.noteMarker.
  change ((rem 0 2 =? 0)%Z && (0 <? Keyboard.gridLines)%Z) with true. cbv iota.
  unfold bind at 1, getState at 1. unfold bind at 1.
  now rewrite (getNoteFromPosition_unknown_scale _ _ _ Hkey).
Qed.

Lemma first_label_unknown_scale (w : World) :
  prop scales (selectedScale (st w)) = None ->
  Keyboard.noteLabel 0 w
  = (Throw (TypeError "scaleArray is undefined"),
     snd (modifyState
            (set_lastRightHandY
               (mapRange (inject_Z 0) 0 (inject_Z Keyboard.gridLines) 1.0 0.0)) w)).
Proof.
  intro Hkey. unfold Keyboard.noteLabel.
  change (0 <? Keyboard.gridLines)%Z with true. cbv iota.
  unfold bind at 1, getState at 1. unfold bind at 1.
  now rewrite (getNoteFromPosition_unknown_scale _ _ _ Hkey).
Qed.

Ltac labelled_line :=
  first [ reflexivity
        | unfold labelledLines; cbn [In];
          repeat (first [left; reflexivity | right]) ].

Ltac run_markers Hkey :=
  unfold Keyboard.createNoteMarkers;
  repeat (rewrite forEachIndex_step;
          first [ rewrite (noteMarker_labelled _ _ Hkey) by labelled_line
                | rewrite noteMarker_plain by (unfold labelledLines; cbn [In]; lia) ];
          cbv beta iota; simpl Z.add);
  cbn [Keyboard.forEachIndex]; unfold ret.

Ltac run_labels Hkey :=
  unfold Keyboard.updateNoteMarkers; cbn [negb]; unfold bind at 1;
  repeat (rewrite forEachSecondIndex_step;
          first [ rewrite (noteLabel_labelled _ _ Hkey) by labelled_line
                | change (Keyboard.noteLabel 14) with (@ret (list (Q * NoteVal)) []);
                  unfold ret at 1 ];
          cbv beta iota; simpl Z.add);
  cbn [Keyboard.forEachSecondIndex]; unfold ret.

(** X22.  With a known scale, createNoteMarkers makes 15 markers of which
    the lines 0, 2, ..., 12 carry a label, and the label of line i is the
    note that createVisualKeyboard gives to the key i;
    createVisualKeyboard makes two rounds of the scale array. *)
Theorem marker_labels_match_keys (w : World) (scaleArray : list Z)
    (Hkey : prop scales (selectedScale (st w)) = Some scaleArray) :
  let key := Keyboard.keyNote (st w) scaleArray in
  exists markers,
    fst (Keyboard.createNoteMarkers w) = Ok markers /\
    map Keyboard.marker_label markers
    = [Some (key 0%Z); None; Some (key 2%Z); None; Some (key 4%Z); None;
       Some (key 6%Z); None; Some (key 8%Z); None; Some (key 10%Z); None;
       Some (key 12%Z); None; None] /\
    fst (Keyboard.createVisualKeyboard w)
    = Ok (map (fun k => key (Z.of_nat k)) (seq 0 (List.length scaleArray * 2))).
Proof.
  cbv zeta. eexists. split; [| split].
  - run_markers Hkey. cbn [fst]. reflexivity.
  - reflexivity.
  - unfold Keyboard.createVisualKeyboard, bind, getState.
    rewrite Hkey. rewrite forEachIndex_pure. reflexivity.
Qed.

Lemma marker_labels_match_keys_witness :
  let key := Keyboard.keyNote (st worldReady) [0; 2; 4; 5; 7; 9; 11; 12]%Z in
  exists markers,
    fst (Keyboard.createNoteMarkers worldReady) = Ok markers /\
    map Keyboard.marker_label markers
    = [Some (key 0%Z); None; Some (key 2%Z); None; Some (key 4%Z); None;
       Some (key 6%Z); None; Some (key 8%Z); None; Some (key 10%Z); None;
       Some (key 12%Z); None; None] /\
    fst (Keyboard.createVisualKeyboard worldReady)
    = Ok (map (fun k => key (Z.of_nat k))
            (seq 0 (List.length [0; 2; 4; 5; 7; 9; 11; 12]%Z * 2))).
Proof.
  exact (marker_labels_match_keys worldReady [0; 2; 4; 5; 7; 9; 11; 12]%Z eq_refl).
Defined.

(** X23.  The label of the grid line i is the note of key i, so labels
    rise in pitch down the page, whereas getNoteFromPosition at the line's
    own height (top / 100) gives the note of key 13 - i (14 - i from line
    8 on), which is never key i: above the middle of the page the labels
    name lower keys than are played there, below it higher ones. *)
Theorem marker_labels_run_against_hand (w : World) (scaleArray : list Z) (i : Z)
    (Hkey : prop scales (selectedScale (st w)) = Some scaleArray)
    (Hline : In i labelledLines) :
  let key := Keyboard.keyNote (st w) scaleArray in
  let top := mapRange (inject_Z i) 0 14 5 95 in
  let played := (13 - i + (if (i <? 7)%Z then 0 else 1))%Z in
  fst (Keyboard.noteMarker i w) = Ok (Keyboard.mkMarker top (i =? 7)%Z (Some (key i))) /\
  fst (getNoteFromPosition (top / 100) (selectedScale (st w)) w) = Ok (key played) /\
  played <> i /\
  (i < played <-> i < 7)%Z.
Proof.
  cbv zeta. split.
  - now rewrite (noteMarker_labelled w scaleArray Hkey w i Hline).
  - unfold labelledLines in Hline. cbn [In] in Hline.
    repeat (destruct Hline as [<- | Hline];
            [split; [erewrite getNoteFromPosition_keyNote
                       by (try exact Hkey; reflexivity);
                     reflexivity
                    | cbn; lia] |]).
    contradiction.
Qed.

Lemma marker_labels_run_against_hand_witness :
  let key := Keyboard.keyNote (st worldReady) [0; 2; 4; 5; 7; 9; 11; 12]%Z in
  fst (Keyboard.noteMarker 2 worldReady)
  = Ok (Keyboard.mkMarker (mapRange 2 0 14 5 95) false (Some (key 2%Z))) /\
  fst (getNoteFromPosition (mapRange 2 0 14 5 95 / 100) "major" worldReady)
  = Ok (key 11%Z).
Proof.
  destruct (marker_labels_run_against_hand worldReady [0; 2; 4; 5; 7; 9; 11; 12]%Z 2
              eq_refl ltac:(cbn; tauto)) as [H1 [H2 _]].
  split; [exact H1 | exact H2].
Defined.

(** X24.  updateNoteMarkers does nothing without the marker container;
    with it, it produces exactly the labels (top and text) of
    createNoteMarkers, throws when createNoteMarkers throws, and leaves
    the same state; with a known scale there are seven labels and the only
    state change of either function is that lastRightHandY is overwritten
    with the position of the last labelled line. *)
Theorem updateNoteMarkers_agrees_with_createNoteMarkers (w : World) :
  Keyboard.updateNoteMarkers false w = (Ok [], w) /\
  Keyboard.updateNoteMarkers true w
  = (match fst (Keyboard.createNoteMarkers w) with
     | Ok markers => Ok (Keyboard.labelsOf markers)
     | Throw e => Throw e
     end, snd (Keyboard.createNoteMarkers w)) /\
  (forall scaleArray,
     prop scales (selectedScale (st w)) = Some scaleArray ->
     exists markers,
       fst (Keyboard.createNoteMarkers w) = Ok markers /\
       List.length (Keyboard.labelsOf markers) = 7%nat /\
       st (snd (Keyboard.createNoteMarkers w))
       = set_lastRightHandY (mapRange 12 0 14 1.0 0.0) (st w)).
Proof.
  split; [reflexivity |].
  destruct (prop scales (selectedScale (st w))) as [scaleArray |] eqn:Hkey.
  - assert (Hrun : exists markers W,
               Keyboard.createNoteMarkers w = (Ok markers, W) /\
               Keyboard.updateNoteMarkers true w = (Ok (Keyboard.labelsOf markers), W) /\
               List.length (Keyboard.labelsOf markers) = 7%nat /\
               st W = set_lastRightHandY (mapRange 12 0 14 1.0 0.0) (st w)).
    { eexists. eexists. split; [| split; [| split]].
      - run_markers Hkey. reflexivity.
      - run_labels Hkey. reflexivity.
      - reflexivity.
      - destruct w as [s ms hs rv cv bh tm cl pl fa]. destruct s. reflexivity. }
    destruct Hrun as [markers [W [Hc [Hu [Hlen Hst]]]]].
    rewrite Hc, Hu. cbn [fst snd]. split; [reflexivity |].
    intros scaleArray' _. exists markers. repeat split; assumption.
  - split; [| intros scaleArray' H; discriminate H].
    unfold Keyboard.createNoteMarkers, Keyboard.updateNoteMarkers. cbn [negb].
    unfold bind at 1.
    rewrite forEachIndex_step, forEachSecondIndex_step.
    rewrite (first_line_unknown_scale w Hkey), (first_label_unknown_scale w Hkey).
    reflexivity.
Qed.

Lemma updateNoteMarkers_agrees_with_createNoteMarkers_witness :
  exists markers,
    fst (Keyboard.createNoteMarkers worldReady) = Ok markers /\
    List.length (Keyboard.labelsOf markers) = 7%nat /\
    st (snd (Keyboard.createNoteMarkers worldReady))
    = set_lastRightHandY (mapRange 12 0 14 1.0 0.0) (st worldReady).
Proof.
  exact (proj2 (proj2 (updateNoteMarkers_agrees_with_createNoteMarkers worldReady))
           [0; 2; 4; 5; 7; 9; 11; 12]%Z eq_refl).
Defined.

End KeyboardMarkers.

(** ** The visualizer over many frames *)

Section ReactiveScale.

Lemma tick_reactiveScale (s : State) (bh : BlackHole.t) :
  BlackHole.reactiveScale (BlackHole.tick s bh)
  = BlackHole.lerp (BlackHole.reactiveScale bh) (if playing s then 1.2 else 1.0) 0.05.
Proof.
  unfold BlackHole.tick, playing.
  destruct (leftHandIsPlaying s || rightHandIsPlaying s); reflexivity.
Qed.

(** X25.  The reactive scale of the visualizer, once in [1, 1.2], stays in
    [1, 1.2] over any sequence of frames, whatever the hands do. *)
Theorem reactiveScale_stays_in_range (frames : list State) (bh : BlackHole.t)
    (Hrange : 1 <= BlackHole.reactiveScale bh <= 1.2) :
  1 <= BlackHole.reactiveScale (BlackHole.ticks frames bh) <= 1.2.
Proof.
  revert bh Hrange. induction frames as [| s frames IH]; intros bh Hrange.
  - exact Hrange.
  - cbn [BlackHole.ticks]. apply IH. rewrite tick_reactiveScale.
    unfold BlackHole.lerp. destruct (playing s); lra.
Qed.

(** X26.  While the play flags do not change, the reactive scale after N
    frames is goal + (initial - goal) * 0.95^N, with goal 1.2 when a hand
    plays and 1.0 otherwise: the distance to the goal shrinks by 5% per
    frame. *)
Theorem reactiveScale_eases_to_target (frames : list State) (bh : BlackHole.t)
    (sounding : bool)
    (Hsame : Forall (fun s => playing s = sounding) frames) :
  let goal := if sounding then 1.2 else 1.0 in
  BlackHole.reactiveScale (BlackHole.ticks frames bh)
  == goal + (BlackHole.reactiveScale bh - goal) * 0.95 ^ Z.of_nat (List.length frames).
Proof.
  cbv zeta. revert bh. induction Hsame as [| s frames Hs Hsame IH]; intro bh.
  - cbn. ring.
  - cbn [BlackHole.ticks List.length]. rewrite IH, tick_reactiveScale, Hs.
    rewrite Nat2Z.inj_succ, <- Z.add_1_l.
    rewrite Qpower_plus by (intro H; discriminate H).
    rewrite Qpower_1_r. unfold BlackHole.lerp. ring.
Qed.

End ReactiveScale.

Section RingProgress.

Lemma frac_nonneg (x : Q) :
  0 <= x -> frac x == x - inject_Z (Qfloor x).
Proof.
  intro Hx. unfold frac. destruct x as [n d]. cbn [Qnum Qden Qfloor].
  assert (Hn : (0 <= n)%Z).
  { unfold Qle in Hx. cbn in Hx. lia. }
  rewrite Z.quot_div_nonneg by lia. reflexivity.
Qed.

Lemma advance_step (p : Q) :
  0 <= p < 1 ->
  0 <= advance p < 1 /\
  (advance p == p + 0.001 \/ advance p == p + 0.001 - 1).
Proof.
  intros [Hlo Hhi]. unfold advance.
  rewrite frac_nonneg by lra.
  pose proof (Qfloor_le (p + 0.001)) as Hfl.
  pose proof (Qlt_floor (p + 0.001)) as Hfu.
  set (k := Qfloor (p + 0.001)) in *.
  assert (Hk : (k = 0 \/ k = 1)%Z).
  { assert (H0 : (-1 < k)%Z).
    { rewrite Zlt_Qlt. rewrite inject_Z_plus in Hfu. change (inject_Z (-1)) with (-1).
      change (inject_Z 1) with 1 in Hfu. lra. }
    assert (H1 : (k < 2)%Z).
    { rewrite Zlt_Qlt. change (inject_Z 2) with 2. lra. }
    lia. }
  rewrite inject_Z_plus in Hfu. change (inject_Z 1) with 1 in Hfu.
  destruct Hk as [-> | ->].
  - change (inject_Z 0) with 0 in *. split; [split; lra | left; lra].
  - change (inject_Z 1) with 1 in *. split; [split; lra | right; lra].
Qed.

Lemma advance_iter (n : nat) (p : Q) :
  0 <= p < 1 ->
  0 <= Nat.iter n advance p < 1 /\
  exists k : Z,
    Nat.iter n advance p == p + inject_Z (Z.of_nat n) * 0.001 - inject_Z k.
Proof.
  intro Hp. induction n as [| n [Hr [k Hk]]].
  - cbn. split; [exact Hp | exists 0%Z; cbn; ring].
  - cbn [Nat.iter]. destruct (advance_step _ Hr) as [Hr' Hcase].
    split; [exact Hr' |].
    rewrite Nat2Z.inj_succ, <- Z.add_1_r, inject_Z_plus. change (inject_Z 1) with 1.
    destruct Hcase as [E | E].
    + exists k. rewrite E, Hk. ring.
    + exists (k + 1)%Z. rewrite E, Hk, inject_Z_plus. change (inject_Z 1) with 1. ring.
Qed.

Lemma discs_ticks (frames : list State) :
  forall bh : BlackHole.t,
    BlackHole.discs (BlackHole.ticks frames bh)
    = map (Nat.iter (List.length frames) advance) (BlackHole.discs bh).
Proof.
  induction frames as [| s frames IH]; intro bh.
  - cbn. now rewrite map_id.
  - cbn [BlackHole.ticks List.length]. rewrite IH.
    assert (E : BlackHole.discs (BlackHole.tick s bh)
                = map advance (BlackHole.discs bh)).
    { unfold BlackHole.tick.
      destruct (leftHandIsPlaying s || rightHandIsPlaying s); reflexivity. }
    rewrite E, map_map. apply map_ext. intro p.
    now rewrite <- Nat.iter_succ_r.
Qed.

(** X27.  The progress of every ring stays in [0, 1) from frame to frame,
    the number of rings never changes, and after 1000 frames every ring is
    back at the progress it started from. *)
Theorem ring_progress_wraps (frames : list State) (bh : BlackHole.t)
    (Hrange : Forall (fun p => 0 <= p < 1) (BlackHole.discs bh)) :
  Forall (fun p => 0 <= p < 1) (BlackHole.discs (BlackHole.ticks frames bh)) /\
  List.length (BlackHole.discs (BlackHole.ticks frames bh))
  = List.length (BlackHole.discs bh) /\
  (List.length frames = 1000%nat ->
   Forall2 Qeq (BlackHole.discs (BlackHole.ticks frames bh)) (BlackHole.discs bh)).
Proof.
  rewrite discs_ticks. split; [| split].
  - apply Forall_map. eapply Forall_impl; [| exact Hrange].
    intros p Hp. apply (advance_iter _ p Hp).
  - apply length_map.
  - intro Hn. rewrite Hn.
    induction Hrange as [| p ps Hp Hps IH]; cbn [map]; constructor; [| exact IH].
    destruct (advance_iter 1000 p Hp) as [[Hlo Hhi] [k Hk]].
    assert (E : inject_Z (Z.of_nat 1000) * 0.001 == 1) by reflexivity.
    rewrite E in Hk.
    assert (Hk1 : k = 1%Z).
    { assert (H0 : (0 < k)%Z) by (rewrite Zlt_Qlt; change (inject_Z 0) with 0; lra).
      assert (H2 : (k < 2)%Z) by (rewrite Zlt_Qlt; change (inject_Z 2) with 2; lra).
      lia. }
    subst k. rewrite Hk. change (inject_Z 1) with 1. ring.
Qed.

End RingProgress.

(** ** Instances *)

Section Instances.

Lemma mapRange_range_and_order_witness :
  0 <= mapRange 0.25 0.0 1.0 14 0 <= 14 /\
  mapRange 0.5 0.0 1.0 14 0 <= mapRange 0.25 0.0 1.0 14 0.
Proof.
  destruct (mapRange_range_and_order 0.25 0.5 0.0 1.0 14 0 ltac:(lra))
    as [_ [_ [_ [_ [_ H]]]]].
  destruct (H ltac:(lra)) as [Hrange Horder].
  split; [exact Hrange | apply Horder; lra].
Defined.

Lemma getNote_pitch_class_in_scale_witness :
  exists semitones name noteOctave,
    In semitones [0; 2; 4; 5; 7; 9; 11; 12]%Z /\
    index notes ((indexOf notes (selectedRoot (st worldReady)) + semitones) mod 12)
    = Some name /\
    fst (getNoteFromPosition 0.3 "major" worldReady)
    = Ok (NoteStr (String.append name (string_of_Z noteOctave))).
Proof.
  apply (getNote_pitch_class_in_scale worldReady 0.3 "major"
           [0; 2; 4; 5; 7; 9; 11; 12]%Z);
    [reflexivity | cbn; tauto | discriminate].
Defined.

Lemma no_hands_frame_silences_witness :
  let w := snd (playMelodyNote (NoteStr "C4") worldReady) in
  let w1 := snd (onHandResults sqrt_micro noHands w) in
  rightHandIsPlaying (st w1) = false /\
  calls w1 = calls w
             ++ (if rightHandIsPlaying (st w) then [MelodyTriggerRelease None] else [])
             ++ (if leftHandIsPlaying (st w) then [HarmonyReleaseAll None] else []).
Proof.
  destruct (no_hands_frame_silences sqrt_micro
              (snd (playMelodyNote (NoteStr "C4") worldReady)) noHands
              eq_refl eq_refl eq_refl eq_refl (fun c => eq_refl))
    as [H1 [_ [H3 _]]].
  split; [exact H1 | exact H3].
Defined.

Lemma sound_switch_resets_voices_witness :
  calls (snd (updateSynths worldReady))
  = calls worldReady ++ [MelodyTriggerRelease None; HarmonyReleaseAll None].
Proof.
  exact (proj1 (sound_switch_resets_voices worldReady
                  eq_refl eq_refl eq_refl (fun c => eq_refl))).
Defined.

Lemma unknown_sound_preset_loses_synths_witness :
  let w := worldWithSound "theremin" in
  fst (fire (List.length (timers w)) (snd (updateSynths w)))
  = Throw (TypeError "preset is undefined").
Proof.
  exact (proj1 (unknown_sound_preset_loses_synths (worldWithSound "theremin")
                  eq_refl eq_refl eq_refl (fun c => eq_refl))).
Defined.

Lemma stopChord_rebuild_timer_is_idle_witness :
  let w := worldHolding chordA in
  calls (snd (stopChord w)) = calls w ++ [HarmonyReleaseAll None] /\
  timers (snd (stopChord w)) = timers w ++ [(100%Z, EnsureChordStopped)].
Proof.
  destruct (stopChord_rebuild_timer_is_idle (worldHolding chordA)
              eq_refl eq_refl (fun c => eq_refl)) as [H1 [H2 _]].
  split; [exact H1 | exact H2].
Defined.

Lemma chord_change_sequence_witness :
  let w := worldHolding chordA in
  calls (snd (playChord chordG w)) = calls w ++ [HarmonyReleaseAll (Some (- 0.005))] /\
  timers (snd (playChord chordG w)) = timers w ++ [(150%Z, RebuildHarmony chordG)].
Proof.
  destruct (chord_change_sequence (worldHolding chordA) chordG
              eq_refl eq_refl eq_refl eq_refl eq_refl (fun c => eq_refl))
    as [H1 [H2 _]].
  split; [exact H1 | exact H2].
Defined.

Lemma superseded_chord_change_sounds_after_stop_witness :
  let w := worldHolding chordA in
  let stopped := snd ((playChord chordG ;; stopChord) w) in
  let w' := snd ((fire 1 ;; fire 0 ;; fire 0) stopped) in
  leftHandIsPlaying (st stopped) = false /\
  timers w' = [] /\
  leftHandIsPlaying (st w') = true.
Proof.
  destruct (superseded_chord_change_sounds_after_stop (worldHolding chordA) chordG
              eq_refl eq_refl eq_refl eq_refl eq_refl eq_refl (fun c => eq_refl))
    as [_ [H2 [H3 [H4 _]]]].
  split; [exact H2 |]. split; [exact H3 | exact H4].
Defined.

Lemma pinch_strength_complements_reverb_witness :
  let pinch := Gestures.detectPinch sqrt_micro (Some (hand_at 0.5)) in
  Gestures.strength pinch == 1 - mapPinchToReverb (Gestures.distance pinch).
Proof.
  exact (proj1 (proj2 (pinch_strength_complements_reverb sqrt_micro (hand_at 0.5)
                         ltac:(cbn; lia)))).
Defined.

Lemma pinching_is_strong_witness :
  let pinch := Gestures.detectPinch sqrt_micro (Some pinching_hand) in
  5 # 9 < Gestures.strength pinch /\ Gestures.strength pinch <= 1.
Proof.
  exact (proj2 (proj2 (pinching_is_strong sqrt_micro (Some pinching_hand) eq_refl))).
Defined.

Lemma gesture_confidence_zero_iff_short_witness :
  Gestures.gesture_name (Gestures.recognizeGesture sqrt_micro (Some pinching_hand))
  = "pinch".
Proof.
  apply (proj2 (proj2 (gesture_confidence_zero_iff_short sqrt_micro
                         (Some pinching_hand)))).
  reflexivity.
Defined.

Lemma reactiveScale_stays_in_range_witness :
  let frames := [set_leftHandIsPlaying true state0; state0] in
  1 <= BlackHole.reactiveScale (BlackHole.ticks frames BlackHole.create) <= 1.2.
Proof.
  apply (reactiveScale_stays_in_range
           [set_leftHandIsPlaying true state0; state0] BlackHole.create).
  split; intro H; discriminate H.
Defined.

Lemma reactiveScale_eases_to_target_witness :
  let frames := [set_leftHandIsPlaying true state0;
                 set_rightHandIsPlaying true state0] in
  BlackHole.reactiveScale (BlackHole.ticks frames BlackHole.create)
  == 1.2 + (BlackHole.reactiveScale BlackHole.create - 1.2) * 0.95 ^ 2.
Proof.
  apply (reactiveScale_eases_to_target
           [set_leftHandIsPlaying true state0; set_rightHandIsPlaying true state0]
           BlackHole.create true).
  repeat constructor.
Defined.

Lemma initial_discs_in_range (n i : nat) :
  (i + n <= 100)%nat ->
  Forall (fun p => 0 <= p < 1) (BlackHole.initial_discs i n).
Proof.
  revert i. induction n as [| n IH]; intros i Hi; cbn [BlackHole.initial_discs].
  - constructor.
  - constructor; [| apply IH; lia].
    assert (H0 : 0 <= inject_Z (Z.of_nat i)).
    { change 0 with (inject_Z 0). rewrite <- Zle_Qle. lia. }
    assert (H1 : inject_Z (Z.of_nat i) < 100).
    { change 100 with (inject_Z 100). rewrite <- Zlt_Qlt. lia. }
    split.
    + apply Qle_shift_div_l; lra.
    + apply Qlt_shift_div_r; lra.
Qed.

Lemma ring_progress_wraps_witness :
  let frames := repeat state0 1000 in
  Forall2 Qeq (BlackHole.discs (BlackHole.ticks frames BlackHole.create))
    (BlackHole.discs BlackHole.create).
Proof.
  apply (ring_progress_wraps (repeat state0 1000) BlackHole.create).
  - apply (initial_discs_in_range 100 0). lia.
  - apply repeat_length.
Defined.

Lemma hand_appears_then_leaves_witness :
  let appear := onHandResults sqrt_micro
                  (mkResults (Some [hand_at 0.5]) (Some ["Left"])) in
  let absent := onHandResults sqrt_micro noHands in
  let w1 := snd (appear worldReady) in
  let w2 := snd (absent w1) in
  let w3 := snd (absent w2) in
  exists wrist note controls,
    index (hand_at 0.5) 0 = Some wrist /\
    fst (getNoteFromPosition (py wrist) (selectedScale (st worldReady)) worldReady)
    = Ok note /\
    Forall (fun c => target c = ReverbEffect \/ exists g, c = MelodyVolume g) controls /\
    calls w1 = calls worldReady ++ controls ++ [MelodyTriggerAttack note 0 0.8] /\
    rightHandIsPlaying (st w1) = true /\
    calls w2 = calls w1 ++ [MelodyTriggerRelease None] /\
    rightHandIsPlaying (st w2) = false /\
    calls w3 = calls w2.
Proof.
  exact (hand_appears_then_leaves sqrt_micro worldReady (hand_at 0.5)
           [0; 2; 4; 5; 7; 9; 11; 12]%Z noHands
           eq_refl eq_refl eq_refl eq_refl eq_refl eq_refl eq_refl
           (fun c => eq_refl) eq_refl eq_refl).
Defined.

End Instances.
